(** * Audio preview controller of the MP3 mixer example

  Shallow embedding of [example/src/App.tsx] and [example/src/worker.ts]:
  the duration estimator [getAudioDuration], the worker-side [combine]
  wrapper, the source-swap scheduler [updateAudioSource] / [handleReady]
  and the orchestration handlers [updateVolume] and [reset]. *)

From Stdlib Require Import ZArith Lia Bool List.
From Stdlib Require Import Strings.String Strings.Ascii Init.Byte.
From Stdlib Require Import Numbers.DecimalString.
From Stdlib Require Import Floats.SpecFloat.
From stdpp Require Import base option list strings gmap.

#[local] Set Warnings "-clear-no-such-hyp".

Local Open Scope Z_scope.

(** ** JavaScript values used by the code *)

Module Js.

(** The three formats of [wasm.SingleAudioFileType]. *)
Inductive SingleAudioFileType := Wav | Mpeg | Ogg.

(** Property values, and objects as maps from property names to values. *)
Inductive Value :=
| Undefined
| Num (z : Z)
| Str (s : string)
| Uint8Array (bs : list byte)
| FileType (t : SingleAudioFileType).

Definition Object := gmap string Value.

(** Abrupt completions: the two built-in errors the code can meet, and a
    [throw] of an arbitrary object.  [OutOfFuel] is an artefact of the
    embedding of [while]; the estimator is proved never to produce it. *)
Inductive Error :=
| RangeError
| TypeError
| Thrown (o : gmap string Value).

Inductive Completion (A : Type) :=
| Return (a : A)
| Throw (e : Error)
| OutOfFuel.
Arguments Return {A} a.
Arguments Throw {A} e.
Arguments OutOfFuel {A}.

Definition bind {A B} (c : Completion A) (k : A -> Completion B) : Completion B :=
  match c with
  | Return a => k a
  | Throw e => Throw e
  | OutOfFuel => OutOfFuel
  end.

(** *** 32-bit integer operators ([<<], [>>], [|], [&]) *)

Definition toInt32 (z : Z) : Z := (z + 2 ^ 31) mod 2 ^ 32 - 2 ^ 31.

Definition shl (a n : Z) : Z := toInt32 (Z.shiftl (toInt32 a) (n mod 32)).
Definition shr (a n : Z) : Z := Z.shiftr (toInt32 a) (n mod 32).
Definition bor (a b : Z) : Z := toInt32 (Z.lor (toInt32 a) (toInt32 b)).
Definition band (a b : Z) : Z := toInt32 (Z.land (toInt32 a) (toInt32 b)).

(** *** Numbers: IEEE 754 binary64 *)

Definition prec : Z := 53.
Definition emax : Z := 1024.

Definition Number := spec_float.

Definition ofZ (z : Z) : Number := binary_normalize prec emax z 0 false.
Definition mul : Number -> Number -> Number := SFmul prec emax.
Definition div : Number -> Number -> Number := SFdiv prec emax.

(** [x % y]: the remainder of the truncating division, with the sign of
    the dividend; it is always representable. *)
Definition rem (x y : Number) : Number :=
  match x, y with
  | S754_nan, _ | _, S754_nan => S754_nan
  | S754_infinity _, _ => S754_nan
  | _, S754_zero _ => S754_nan
  | S754_zero s, _ => S754_zero s
  | S754_finite _ _ _, S754_infinity _ => x
  | S754_finite sx mx ex, S754_finite _ my ey =>
      let e := Z.min ex ey in
      let X := Z.pos mx * 2 ^ (ex - e) in
      let Y := Z.pos my * 2 ^ (ey - e) in
      let R := Z.rem X Y in
      binary_normalize prec emax (if sx then - R else R) e sx
  end.

(** [Math.floor] *)
Definition floor (x : Number) : Number :=
  match x with
  | S754_finite s m e =>
      if 0 <=? e then x
      else binary_normalize prec emax
             (Z.shiftr (if s then Z.neg m else Z.pos m) (- e)) 0 s
  | _ => x
  end.

(** [Number.prototype.toString] on the results of [Math.floor].  For an
    integer of magnitude below 1e21 JavaScript prints its decimal digits;
    every duration computed from an [ArrayBuffer] is far below that. *)
Definition toString (x : Number) : string :=
  match x with
  | S754_nan => "NaN"
  | S754_infinity false => "Infinity"
  | S754_infinity true => "-Infinity"
  | S754_zero _ => "0"
  | S754_finite s m e =>
      let z := Z.shiftl (Z.pos m) e in
      (if s then "-" else "") ++ NilZero.string_of_uint (N.to_uint (Z.to_N z))
  end%string.

(** [String.prototype.padStart] with a one-character filler *)
Definition padStart (width : nat) (fill : ascii) (s : string) : string :=
  (string_of_list_ascii (repeat fill (width - String.length s)) ++ s)%string.

End Js.

Notation "'let*' x := c 'in' k" := (Js.bind c (fun x => k))
(at level 10, x name, c at level 100, k at level 200).

(** ** Duration estimator ([getAudioDuration], App.tsx 184-229) *)

Module Dom.

(** A [File] picked in the file input: [file.size] is the length of the
    buffer that [file.arrayBuffer()] resolves to. *)
Record File := { name : string; type : string; arrayBuffer : list byte }.

Definition size (file : File) : Z := Z.of_nat (length (arrayBuffer file)).

End Dom.

Module Estimator.
Import Js.

Abbreviation DataView := (list byte).

Definition byteLength (view : DataView) : Z := Z.of_nat (length view).

Definition byteValue (b : byte) : Z := Z.of_N (Byte.to_N b).

(** [DataView.prototype.getUint8] throws a [RangeError] outside the view. *)
Definition getUint8 (view : DataView) (i : Z) : Completion Z :=
  if i <? 0 then Throw RangeError
  else match view !! Z.to_nat i with
       | Some b => Return (byteValue b)
       | None => Throw RangeError
       end.

Definition bitrates : list Z :=
  [0; 32; 40; 48; 56; 64; 80; 96; 112; 128; 160; 192; 224; 256; 320; 0].

(** Lines 187-200: the offset at which the frame scan starts. *)
Definition initialOffset (view : DataView) : Completion Z :=
  let* b0 := getUint8 view 0 in
  if negb (b0 =? 0x49) then Return 0 else
  let* b1 := getUint8 view 1 in
  if negb (b1 =? 0x44) then Return 0 else
  let* b2 := getUint8 view 2 in
  if negb (b2 =? 0x33) then Return 0 else
  let* b6 := getUint8 view 6 in
  let* b7 := getUint8 view 7 in
  let* b8 := getUint8 view 8 in
  let* b9 := getUint8 view 9 in
  let size := bor (bor (bor (shl b6 21) (shl b7 14)) (shl b8 7)) b9 in
  Return (size + 10).

(** Lines 208-213: the body of the [if] once a sync is found at [offset];
    [size] is [file.size]. *)
Definition frameDuration (view : DataView) (size offset : Z) : Completion Number :=
  let* byte2 := getUint8 view (offset + 2) in
  match bitrates !! Z.to_nat (band (shr byte2 4) 15) with
  | Some bitrate =>
      if 0 <? bitrate
      then Return (div (mul (ofZ size) (ofZ 8)) (mul (ofZ bitrate) (ofZ 1000)))
      else Return (S754_zero false)
  | None => Return (S754_zero false)
  end.

(** Lines 202-217: the [while] loop, one iteration per unit of fuel. *)
Fixpoint scan (fuel : nat) (view : DataView) (size offset : Z) : Completion Number :=
  if offset <? byteLength view - 4 then
    match fuel with
    | O => OutOfFuel
    | S fuel' =>
        let* b0 := getUint8 view offset in
        if b0 =? 0xff then
          let* b1 := getUint8 view (offset + 1) in
          if band b1 0xe0 =? 0xe0 then frameDuration view size offset
          else scan fuel' view size (offset + 1)
        else scan fuel' view size (offset + 1)
    end
  else Return (S754_zero false).

(** Lines 219-228 *)
Definition formatDuration (durationSeconds : Number) : string :=
  let h := padStart 2 "0" (toString (floor (div durationSeconds (ofZ 3600)))) in
  let m := padStart 2 "0"
             (toString (floor (div (rem durationSeconds (ofZ 3600)) (ofZ 60)))) in
  let s := padStart 2 "0" (toString (floor (rem durationSeconds (ofZ 60)))) in
  (h ++ ":" ++ m ++ ":" ++ s)%string.

(** The whole function.  The loop runs fewer than [byteLength] times, so
    the length of the buffer is enough fuel. *)
Definition getAudioDuration (file : Dom.File) : Completion string :=
  let buffer := Dom.arrayBuffer file in
  let view : DataView := buffer in
  let* offset := initialOffset view in
  let* durationSeconds := scan (length buffer) view (Dom.size file) offset in
  Return (formatDuration durationSeconds).

End Estimator.

(** ** Worker-side combiner proxy ([createCombiner], worker.ts 14-42) *)

Module Worker.
Import Js.

(** The object returned to the page by the proxy's [combine]. *)
Record Combined := { bytes : Value; type : Value }.

(** Property read [o.p]: a missing property reads as [undefined]. *)
Definition get (o : Object) (p : string) : Value := default Undefined (o !! p).

(** Lines 25-36.  [result] is the completion of the awaited
    [combiner.combine(volumes)]: what the engine returned, or its own
    exception. *)
Definition combine (result : Completion Object) : Completion Combined :=
  let* resultFile := result in
  if negb (bool_decide (is_Some (resultFile !! "bytes"%string)))
  then Throw (Thrown resultFile)
  else Return {| bytes := get resultFile "bytes"; type := get resultFile "type" |}.

End Worker.

(** ** Source-swap scheduler ([updateAudioSource], App.tsx 50-126) *)

Module Scheduler.
Import Js.

(** The [file] argument of [updateAudioSource]. *)
Record MixedAudio := { bytes : list byte; type : SingleAudioFileType }.

Record Blob := { blobParts : list byte; blobType : string }.

(** Object URLs are opaque; [URL.createObjectURL] hands out a fresh one on
    every call, here the next number. *)
Definition Url := nat.

(** The only listener the code registers is the closure [handleReady],
    which captures [newUrl] (and the two elements). *)
Inductive Listener := HandleReady (newUrl : Url).

#[global] Instance Listener_eq_dec : EqDecision Listener.
Proof. solve_decision. Defined.

(** An [<audio>] element: [src] is [None] for the empty string, and
    [canplaythrough] holds the listeners of that event. *)
Record HTMLAudioElement := {
  src : option Url;
  currentTime : Number;
  paused : bool;
  canplaythrough : list Listener
}.

(** The calls that create, release and bind object URLs, in the order in
    which the page makes them. *)
Inductive Call :=
| CreateObjectURL (blob : Blob) (url : Url)
| RevokeObjectURL (url : Url)
| SetMainSrc (url : Url).

(** The refs of the component that the scheduler uses, and the browser's
    blob URL store. *)
Record State := {
  audioRef : option HTMLAudioElement;       (* visible player *)
  loaderRef : option HTMLAudioElement;      (* hidden probe *)
  isSwappingRef : bool;
  pendingUpdateRef : option MixedAudio;
  nextUrl : Url;
  blobStore : gmap Url Blob;
  calls : list Call
}.

Definition set_audioRef (a : option HTMLAudioElement) (st : State) : State :=
  {| audioRef := a; loaderRef := loaderRef st;
     isSwappingRef := isSwappingRef st; pendingUpdateRef := pendingUpdateRef st;
     nextUrl := nextUrl st; blobStore := blobStore st; calls := calls st |}.
Definition set_loaderRef (l : option HTMLAudioElement) (st : State) : State :=
  {| audioRef := audioRef st; loaderRef := l;
     isSwappingRef := isSwappingRef st; pendingUpdateRef := pendingUpdateRef st;
     nextUrl := nextUrl st; blobStore := blobStore st; calls := calls st |}.
Definition set_isSwappingRef (b : bool) (st : State) : State :=
  {| audioRef := audioRef st; loaderRef := loaderRef st;
     isSwappingRef := b; pendingUpdateRef := pendingUpdateRef st;
     nextUrl := nextUrl st; blobStore := blobStore st; calls := calls st |}.
Definition set_pendingUpdateRef (p : option MixedAudio) (st : State) : State :=
  {| audioRef := audioRef st; loaderRef := loaderRef st;
     isSwappingRef := isSwappingRef st; pendingUpdateRef := p;
     nextUrl := nextUrl st; blobStore := blobStore st; calls := calls st |}.

(** *** Browser primitives *)

Definition createObjectURL (blob : Blob) (st : State) : Url * State :=
  let url := nextUrl st in
  (url,
   {| audioRef := audioRef st; loaderRef := loaderRef st;
      isSwappingRef := isSwappingRef st; pendingUpdateRef := pendingUpdateRef st;
      nextUrl := S url; blobStore := <[url := blob]> (blobStore st);
      calls := calls st ++ [CreateObjectURL blob url] |}).

Definition revokeObjectURL (url : Url) (st : State) : State :=
  {| audioRef := audioRef st; loaderRef := loaderRef st;
     isSwappingRef := isSwappingRef st; pendingUpdateRef := pendingUpdateRef st;
     nextUrl := nextUrl st; blobStore := delete url (blobStore st);
     calls := calls st ++ [RevokeObjectURL url] |}.

Definition logCall (c : Call) (st : State) : State :=
  {| audioRef := audioRef st; loaderRef := loaderRef st;
     isSwappingRef := isSwappingRef st; pendingUpdateRef := pendingUpdateRef st;
     nextUrl := nextUrl st; blobStore := blobStore st;
     calls := calls st ++ [c] |}.

Definition set_src (u : Url) (el : HTMLAudioElement) : HTMLAudioElement :=
  {| src := Some u; currentTime := currentTime el; paused := paused el;
     canplaythrough := canplaythrough el |}.

Definition set_currentTime (t : Number) (el : HTMLAudioElement) : HTMLAudioElement :=
  {| src := src el; currentTime := t; paused := paused el;
     canplaythrough := canplaythrough el |}.

(** [el.load()] restarts the element: it is paused and back at position 0. *)
Definition load (el : HTMLAudioElement) : HTMLAudioElement :=
  {| src := src el; currentTime := S754_zero false; paused := true;
     canplaythrough := canplaythrough el |}.

(** [el.play()]: when the browser allows it the element plays and the
    promise resolves; otherwise the promise rejects and the element stays
    as it was.  [ok] is the browser's decision. *)
Definition play (ok : bool) (el : HTMLAudioElement) : HTMLAudioElement :=
  if ok
  then {| src := src el; currentTime := currentTime el; paused := false;
          canplaythrough := canplaythrough el |}
  else el.

(** Every call passes a closure created by that very call, so the
    listener is never already in the list. *)
Definition addEventListener (h : Listener) (el : HTMLAudioElement) : HTMLAudioElement :=
  {| src := src el; currentTime := currentTime el; paused := paused el;
     canplaythrough := canplaythrough el ++ [h] |}.

Definition removeEventListener (h : Listener) (el : HTMLAudioElement) : HTMLAudioElement :=
  {| src := src el; currentTime := currentTime el; paused := paused el;
     canplaythrough := filter (λ h', h' ≠ h) (canplaythrough el) |}.

(** *** The scheduler *)

(** Lines 70-84: the [switch]; its [default] branch ([assertNever]) cannot
    be reached with one of the three formats. *)
Definition audioType (t : SingleAudioFileType) : string :=
  match t with
  | Wav => "audio/wav"
  | Mpeg => "audio/mpeg"
  | Ogg => "audio/ogg"
  end.

(** Lines 58-94 and 124: everything but the body of [handleReady]. *)
Definition updateAudioSource (file : MixedAudio) (st : State) : State :=
  if isSwappingRef st then set_pendingUpdateRef (Some file) st
  else
    let st := set_isSwappingRef true st in
    let blob := {| blobParts := bytes file; blobType := audioType (type file) |} in
    let '(newUrl, st) := createObjectURL blob st in
    match audioRef st, loaderRef st with
    | Some mainAudio, Some loaderAudio =>
        let loaderAudio := load (set_src newUrl loaderAudio) in
        set_loaderRef (Some (addEventListener (HandleReady newUrl) loaderAudio)) st
    | _, _ => st
    end.

(** Lines 96-122.  [handleReady] is only ever registered under the guard
    [mainAudio && loaderAudio], so both elements exist when it runs. *)
Definition handleReady (newUrl : Url) (playOk : bool) (st : State) : State :=
  match audioRef st, loaderRef st with
  | Some mainAudio, Some loaderAudio =>
      let currentTime := currentTime mainAudio in
      let isPlaying := negb (paused mainAudio) in
      let st := match src mainAudio with
                | Some old => revokeObjectURL old st
                | None => st
                end in
      let mainAudio := set_src newUrl mainAudio in
      let st := logCall (SetMainSrc newUrl) st in
      let mainAudio := load mainAudio in
      let mainAudio := set_currentTime currentTime mainAudio in
      let mainAudio := if isPlaying then play playOk mainAudio else mainAudio in
      let st := set_audioRef (Some mainAudio) st in
      let st := set_isSwappingRef false st in
      let st := set_loaderRef
                  (Some (removeEventListener (HandleReady newUrl) loaderAudio)) st in
      match pendingUpdateRef st with
      | Some nextFile => updateAudioSource nextFile (set_pendingUpdateRef None st)
      | None => st
      end
  | _, _ => st
  end.

(** *** The environment *)

(** What can happen to the scheduler: a result is presented, the loader
    fires [canplaythrough] (and the browser will or will not allow a
    [play()]), or the visible player moves on by itself (the user plays,
    pauses or seeks, or playback advances). *)
Inductive Event :=
| Present (file : MixedAudio)
| CanPlayThrough (playOk : bool)
| MainChanged (t : Number) (p : bool).

(** An event is dispatched to the listeners registered when it fires. *)
Definition dispatch (playOk : bool) (st : State) : State :=
  match loaderRef st with
  | Some loaderAudio =>
      foldl (λ st h, match h with HandleReady u => handleReady u playOk st end)
            st (canplaythrough loaderAudio)
  | None => st
  end.

Definition mainChanged (t : Number) (p : bool) (st : State) : State :=
  match audioRef st with
  | Some mainAudio =>
      set_audioRef
        (Some {| src := src mainAudio; currentTime := t; paused := p;
                 canplaythrough := canplaythrough mainAudio |}) st
  | None => st
  end.

Definition step (st : State) (e : Event) : State :=
  match e with
  | Present file => updateAudioSource file st
  | CanPlayThrough playOk => dispatch playOk st
  | MainChanged t p => mainChanged t p st
  end.

Definition run (events : list Event) (st : State) : State := foldl step st events.

(** Both [<audio>] elements are rendered unconditionally (lines 274-282):
    once the component is mounted the refs are set, nothing is playing and
    no URL exists. *)
Definition emptyAudio : HTMLAudioElement :=
  {| src := None; currentTime := S754_zero false; paused := true;
     canplaythrough := [] |}.

Definition mounted : State :=
  {| audioRef := Some emptyAudio; loaderRef := Some emptyAudio;
     isSwappingRef := false; pendingUpdateRef := None;
     nextUrl := O; blobStore := ∅; calls := [] |}.

(** *** Observations *)

(** The preloads in flight: the URLs whose [handleReady] is registered. *)
Definition inFlight (st : State) : list Url :=
  match loaderRef st with
  | Some loaderAudio => (λ h, match h with HandleReady u => u end) <$> canplaythrough loaderAudio
  | None => []
  end.

(** The URLs made live, and the URLs released, in order. *)
Definition lives (cs : list Call) : list Url :=
  omap (λ c, match c with SetMainSrc u => Some u | _ => None end) cs.

Definition released (cs : list Call) : list Url :=
  omap (λ c, match c with RevokeObjectURL u => Some u | _ => None end) cs.

Definition blobOf (file : MixedAudio) : Blob :=
  {| blobParts := bytes file; blobType := audioType (type file) |}.

End Scheduler.

(** ** Orchestration ([handleFileChange], [updateVolume], [reset]) *)

Module Orchestrator.
Import Js.

Record AudioFile := {
  id : string;
  name : string;
  duration : string;
  volume : Z
}.

(** The proxy returned by [api.createCombiner]: a handle on the engine-side
    combiner that lives in the worker. *)
Definition Combiner := nat.

(** The calls the page makes on the worker, in order. *)
Inductive WorkerCall :=
| CreateCombiner (fileData : list (list byte * SingleAudioFileType))
| Combine (combiner : Combiner) (volumes : list Z)
| Free (combiner : Combiner).

(** The component: its [files] state, its refs, the scheduler of the
    previous section, and the worker as the page sees it. *)
Record App := {
  files : list AudioFile;
  audioCombinerRef : option Combiner;
  fileInputRef : option string;             (* the input's [value] *)
  player : Scheduler.State;
  workerCalls : list WorkerCall
}.

Definition setFiles (fs : list AudioFile) (app : App) : App :=
  {| files := fs; audioCombinerRef := audioCombinerRef app;
     fileInputRef := fileInputRef app; player := player app;
     workerCalls := workerCalls app |}.
Definition set_audioCombinerRef (c : option Combiner) (app : App) : App :=
  {| files := files app; audioCombinerRef := c;
     fileInputRef := fileInputRef app; player := player app;
     workerCalls := workerCalls app |}.
Definition set_fileInputRef (v : option string) (app : App) : App :=
  {| files := files app; audioCombinerRef := audioCombinerRef app;
     fileInputRef := v; player := player app;
     workerCalls := workerCalls app |}.
Definition set_player (p : Scheduler.State) (app : App) : App :=
  {| files := files app; audioCombinerRef := audioCombinerRef app;
     fileInputRef := fileInputRef app; player := p;
     workerCalls := workerCalls app |}.
Definition callWorker (c : WorkerCall) (app : App) : App :=
  {| files := files app; audioCombinerRef := audioCombinerRef app;
     fileInputRef := fileInputRef app; player := player app;
     workerCalls := workerCalls app ++ [c] |}.

(** [new Uint8Array(numbers)] stores every number modulo 256. *)
Definition toUint8 (z : Z) : Z := z mod 256.

(** Lines 139-142 *)
Definition typeOfMime (mime : string) : SingleAudioFileType :=
  if bool_decide (mime = "audio/mpeg"%string) then Mpeg
  else if bool_decide (mime = "audio/wav"%string) then Wav
  else Mpeg.

(** [Promise.all] over [async] callbacks: the first failure wins. *)
Fixpoint all {A B} (f : A -> Completion B) (xs : list A) : Completion (list B) :=
  match xs with
  | [] => Return []
  | x :: xs' =>
      let* y := f x in
      let* ys := all f xs' in
      Return (y :: ys)
  end.

(** Lines 128-165, up to the second [await] of [combine].  [created] is the
    completion of [api.createCombiner] and [random i] the identifier drawn
    for the [i]-th file.  The result is the component after the handler
    either suspended on [combine] ([Return]) or failed; what follows the
    [await] is in [handleFileChangeSettled]. *)
Definition handleFileChange (selectedFiles : list Dom.File)
    (created : Completion Combiner) (random : nat -> string) (app : App)
  : App * Completion unit :=
  match selectedFiles with
  | [] => (app, Return ())
  | _ =>
      let fileData :=
        map (λ file, (Dom.arrayBuffer file, typeOfMime (Dom.type file))) selectedFiles in
      let app := callWorker (CreateCombiner fileData) app in
      match created with
      | Return audioCombiner =>
          match all (λ '(i, file),
                       let* duration := Estimator.getAudioDuration file in
                       Return {| id := random i; name := Dom.name file;
                                 duration := duration; volume := 100 |})
                    (imap pair selectedFiles) with
          | Return newFiles =>
              let app := set_audioCombinerRef (Some audioCombiner) app in
              let app := setFiles newFiles app in
              let initialVolumes := map (λ _, toUint8 100) newFiles in
              (callWorker (Combine audioCombiner initialVolumes) app, Return ())
          | Throw e => (app, Throw e)
          | OutOfFuel => (app, OutOfFuel)
          end
      | Throw e => (app, Throw e)
      | OutOfFuel => (app, OutOfFuel)
      end
  end.

(** Lines 169-179, up to the [await]. *)
Definition updateVolume (id' : string) (value : Z) (app : App) : App :=
  let updatedFiles :=
    map (λ f, if bool_decide (id f = id')
              then {| id := id f; name := name f; duration := duration f;
                      volume := value |}
              else f) (files app) in
  let app := setFiles updatedFiles app in
  match audioCombinerRef app with
  | Some combiner =>
      let volumes := map (λ f, toUint8 (volume f)) updatedFiles in
      callWorker (Combine combiner volumes) app
  | None => app
  end.

(** Lines 166 and 180: the awaited [combine] resolved with [combinedFile]. *)
Definition combineResolved (combinedFile : Scheduler.MixedAudio) (app : App) : App :=
  set_player (Scheduler.updateAudioSource combinedFile (player app)) app.

(** Lines 128-167, the whole handler: [handleFileChange] followed by the
    rest of the function once the awaited initial [combine] has settled.
    [combined] is the completion of that [combine]: the mixed file, or the
    rejection (the object thrown by the worker, worker.ts 27-29).  When the
    promise rejects the handler ends there, after lines 160-161 have stored
    the combiner and the tracks. *)
Definition handleFileChangeSettled (selectedFiles : list Dom.File)
    (created : Completion Combiner) (random : nat -> string)
    (combined : Completion Scheduler.MixedAudio) (app : App)
  : App * Completion unit :=
  match selectedFiles, handleFileChange selectedFiles created random app with
  | _ :: _, (app', Return _) =>
      match combined with
      | Return combinedFile => (combineResolved combinedFile app', Return ())
      | Throw e => (app', Throw e)
      | OutOfFuel => (app', OutOfFuel)
      end
  | _, result => result
  end.

(** Lines 231-235 *)
Definition reset (app : App) : App :=
  let app := setFiles [] app in
  let app := set_audioCombinerRef None app in
  match fileInputRef app with
  | Some _ => set_fileInputRef (Some ""%string) app
  | None => app
  end.

(** An event of the scheduler's environment, seen from the component. *)
Definition playerEvent (e : Scheduler.Event) (app : App) : App :=
  set_player (Scheduler.step (player app) e) app.

Definition mounted : App :=
  {| files := []; audioCombinerRef := None; fileInputRef := Some ""%string;
     player := Scheduler.mounted; workerCalls := [] |}.

(** The combiners on which the page called [free], in order. *)
Definition freed (cs : list WorkerCall) : list Combiner :=
  omap (λ c, match c with Free h => Some h | _ => None end) cs.


End Orchestrator.

(** ** Notions of the specification, used to state the properties *)

Module Spec.
Import Js Estimator.

(** A frame sync at [p]: a byte [0xFF] followed by a byte whose top three
    bits are set. *)
Definition isSync (view : DataView) (p : Z) : bool :=
  match getUint8 view p, getUint8 view (p + 1) with
  | Return b0, Return b1 => (b0 =? 0xff) && (Z.land b1 0xe0 =? 0xe0)
  | _, _ => false
  end.

(** [p] is the first sync at or after [start] that the scan can see: the
    scan stops four bytes before the end of the buffer. *)
Definition firstSync (view : DataView) (start p : Z) : Prop :=
  start <= p < byteLength view - 4 ∧ isSync view p = true ∧
  ∀ q, start <= q < p → isSync view q = false.

(** The scan sees no sync from [start] on. *)
Definition noSync (view : DataView) (start : Z) : Prop :=
  ∀ q, start <= q < byteLength view - 4 → isSync view q = false.

(** The bitrate-table index selected by the third byte of a frame. *)
Definition bitrateIndex (byte2 : Z) : Z := Z.land (Z.shiftr byte2 4) 15.

(** The synch-safe size: four bytes, most significant first, each
    contributing its low seven bits. *)
Definition synchSafeSize (b6 b7 b8 b9 : Z) : Z :=
  Z.land b6 0x7f * 2 ^ 21 + Z.land b7 0x7f * 2 ^ 14 +
  Z.land b8 0x7f * 2 ^ 7 + Z.land b9 0x7f.

(** The size read by the code, over whole bytes: no bit is masked off. *)
Definition rawSize (c6 c7 c8 c9 : byte) : Z :=
  Z.lor (Z.lor (Z.lor (Z.shiftl (byteValue c6) 21) (Z.shiftl (byteValue c7) 14))
               (Z.shiftl (byteValue c8) 7))
        (byteValue c9).

(** The buffer ends inside the header that the code reads: it is empty, or
    it is cut after a first byte [49], after [49 44], or before the tenth
    byte of a tag [49 44 33]. *)
Definition truncatedHeader (view : DataView) : Prop :=
  view = [] ∨ view = [x49] ∨ view = [x49; x44] ∨
  ∃ rest, view = x49 :: x44 :: x33 :: rest ∧ (length rest < 7)%nat.

End Spec.

Module SchedulerSpec.
Import Js Scheduler.

(** The states the scheduler can be in: those reached from the mounted
    component by some sequence of events. *)
Definition reachable (st : State) : Prop := ∃ events, st = run events mounted.

(** Events that only move the visible player. *)
Definition isMainChanged (e : Event) : bool :=
  match e with MainChanged _ _ => true | _ => false end.

Definition quiet (events : list Event) : Prop := forallb isMainChanged events = true.

(** The URL bound to the visible player. *)
Definition liveUrl (st : State) : option Url := audioRef st ≫= src.

Definition urlSet (u : option Url) : gset Url :=
  match u with Some v => {[v]} | None => ∅ end.

(** Every superseded URL is released by the call just before the one that
    binds its successor. *)
Definition releasedJustBefore (cs : list Call) : Prop :=
  ∀ i u v, lives cs !! i = Some u → lives cs !! S i = Some v →
    ∃ k, cs !! k = Some (RevokeObjectURL u) ∧ cs !! S k = Some (SetMainSrc v).

(** What holds in every reachable state. *)
Definition Inv (st : State) : Prop :=
  ∃ m l, audioRef st = Some m ∧ loaderRef st = Some l ∧
    (if isSwappingRef st
     then ∃ u, canplaythrough l = [HandleReady u] ∧ src l = Some u ∧
               S u = nextUrl st ∧ Forall (λ v, v < u)%nat (lives (calls st)) ∧
               dom (blobStore st) = {[u]} ∪ urlSet (src m)
     else canplaythrough l = [] ∧ pendingUpdateRef st = None ∧
          Forall (λ v, v < nextUrl st)%nat (lives (calls st)) ∧
          dom (blobStore st) = urlSet (src m)) ∧
    match src m with
    | Some u => lives (calls st) = released (calls st) ++ [u]
    | None => lives (calls st) = [] ∧ released (calls st) = []
    end ∧
    NoDup (lives (calls st)) ∧
    releasedJustBefore (calls st).

(** The state with the position and play state of the visible player
    forgotten: two states with the same image differ in nothing else. *)
Definition forget (st : State) : State := mainChanged (S754_zero false) true st.

(** The state in which [updateAudioSource file] leaves an idle scheduler
    whose elements are [m] and [l]. *)
Definition preloading (file : MixedAudio) (m l : HTMLAudioElement) (st : State) : State :=
{| audioRef := Some m;
   loaderRef :=
     Some {| src := Some (nextUrl st); currentTime := S754_zero false; paused := true;
             canplaythrough := canplaythrough l ++ [HandleReady (nextUrl st)] |};
   isSwappingRef := true; pendingUpdateRef := pendingUpdateRef st;
   nextUrl := S (nextUrl st);
   blobStore := <[nextUrl st := blobOf file]> (blobStore st);
   calls := calls st ++ [CreateObjectURL (blobOf file) (nextUrl st)] |}.

Definition revokes (old : option Url) : list Call :=
match old with Some v => [RevokeObjectURL v] | None => [] end.

(** The state in which [handleReady] for [u] leaves the scheduler just
    before it looks at [pendingUpdateRef]. *)
Definition swapped (u : Url) (playOk : bool) (m l : HTMLAudioElement) (st : State) : State :=
{| audioRef :=
     Some {| src := Some u; currentTime := currentTime m;
             paused := if paused m then true else negb playOk;
             canplaythrough := canplaythrough m |};
   loaderRef := Some (removeEventListener (HandleReady u) l);
   isSwappingRef := false; pendingUpdateRef := None;
   nextUrl := nextUrl st;
   blobStore := match src m with
                | Some old => delete old (blobStore st)
                | None => blobStore st
                end;
   calls := match src m with
            | Some old => (calls st ++ [RevokeObjectURL old]) ++ [SetMainSrc u]
            | None => calls st ++ [SetMainSrc u]
            end |}.

(** The hidden loader while it preloads [u]: [u] was assigned to its [src],
    [load()] was called, and the [handleReady] that will bind [u] is its only
    [canplaythrough] listener. *)
Definition loading (u : Url) : HTMLAudioElement :=
  {| src := Some u; currentTime := S754_zero false; paused := true;
     canplaythrough := [HandleReady u] |}.

(** The result presented last in a sequence of events, if any. *)
Definition lastPresented (events : list Event) : option MixedAudio :=
  last (omap (λ e, match e with Present f => Some f | _ => None end) events).

(** Sequences of events in which the loader never reports. *)
Definition isCanPlayThrough (e : Event) : bool :=
  match e with CanPlayThrough _ => true | _ => false end.

Definition noReady (events : list Event) : Prop :=
  forallb (λ e, negb (isCanPlayThrough e)) events = true.

End SchedulerSpec.

Module OrchestratorSpec.
Import Js Orchestrator.

(** The string the estimator returns for a file it does not fail on. *)
Definition estimate (file : Dom.File) : string :=
  match Estimator.getAudioDuration file with
  | Return duration => duration
  | _ => ""%string
  end.

(** The track that [handleFileChange] builds for the [i]-th selected file. *)
Definition trackOf (random : nat -> string) (i : nat) (file : Dom.File) : AudioFile :=
  {| id := random i; name := Dom.name file; duration := estimate file; volume := 100 |}.

(** The [fileData] that [handleFileChange] sends to [createCombiner]. *)
Definition fileDataOf (selectedFiles : list Dom.File)
  : list (list byte * SingleAudioFileType) :=
  map (λ file, (Dom.arrayBuffer file, typeOfMime (Dom.type file))) selectedFiles.

End OrchestratorSpec.

(** ** Start-up effect (App.tsx 22 and 35-43) *)

Module Bootstrap.

(** The module-level flag [ran], and how often [api.init()] was requested. *)
Record Boot := { ran : bool; initRequests : nat }.

Definition loaded : Boot := {| ran := false; initRequests := O |}.

(** One run of the effect. *)
Definition effect (b : Boot) : Boot :=
  if ran b then b
  else {| ran := true; initRequests := S (initRequests b) |}.

End Bootstrap.

(** * Properties *)

(** ** The duration estimator *)

Section EstimatorFacts.
Import Js Estimator Spec.

Lemma byteValue_range (b : byte) : 0 <= byteValue b < 256.
Proof.
  unfold byteValue. pose proof (Byte.to_N_bounded b) as H.
  split; [apply N2Z.is_nonneg|]. apply N.lt_succ_r in H. lia.
Qed.

Lemma getUint8_inside (view : DataView) (i : Z) :
  0 <= i < byteLength view →
  ∃ b, view !! Z.to_nat i = Some b ∧ getUint8 view i = Return (byteValue b).
Proof.
  intros [H0 H1]. unfold getUint8, byteLength in *.
  destruct (Z.ltb_spec i 0) as [?|_]; [lia|].
  destruct (lookup_lt_is_Some_2 view (Z.to_nat i)) as [b Hb]; [lia|].
  exists b. by rewrite Hb.
Qed.

Lemma getUint8_outside (view : DataView) (i : Z) :
  i < 0 ∨ byteLength view <= i → getUint8 view i = Throw RangeError.
Proof.
  intros H. unfold getUint8, byteLength in *.
  destruct (Z.ltb_spec i 0) as [?|?]; [done|].
  rewrite lookup_ge_None_2; [done|lia].
Qed.

Lemma getUint8_Return (view : DataView) (i z : Z) :
  getUint8 view i = Return z → 0 <= i < byteLength view ∧ 0 <= z < 256.
Proof.
  unfold getUint8, byteLength.
  destruct (Z.ltb_spec i 0) as [?|?]; [done|].
  destruct (view !! Z.to_nat i) as [b|] eqn:Hb; [|done].
  intros [= <-]. apply lookup_lt_Some in Hb.
  split; [lia|apply byteValue_range].
Qed.

(** On bytes the 32-bit operators of the code are the plain ones. *)
Lemma toInt32_small (z : Z) : - 2147483648 <= z < 2147483648 → toInt32 z = z.
Proof.
  intros H. unfold toInt32.
  change (2 ^ 31) with 2147483648. change (2 ^ 32) with 4294967296.
  rewrite Z.mod_small; lia.
Qed.

(** On a byte each of these operators can be checked value by value. *)
Lemma band_sync_byte (b : byte) :
  band (byteValue b) 0xe0 = Z.land (byteValue b) 0xe0.
Proof. destruct b; reflexivity. Qed.

Lemma band_shr_byte (b : byte) :
  band (shr (byteValue b) 4) 15 = bitrateIndex (byteValue b).
Proof. destruct b; reflexivity. Qed.

Lemma bitrateIndex_byte (b : byte) : 0 <= bitrateIndex (byteValue b) < 16.
Proof. destruct b; vm_compute; split; congruence. Qed.

Lemma shl_byte_21 (b : byte) : shl (byteValue b) 21 = Z.shiftl (byteValue b) 21.
Proof. destruct b; reflexivity. Qed.

Lemma shl_byte_14 (b : byte) : shl (byteValue b) 14 = Z.shiftl (byteValue b) 14.
Proof. destruct b; reflexivity. Qed.

Lemma shl_byte_7 (b : byte) : shl (byteValue b) 7 = Z.shiftl (byteValue b) 7.
Proof. destruct b; reflexivity. Qed.

Lemma lor_below (n a b : Z) :
  0 <= n → 0 <= a < 2 ^ n → 0 <= b < 2 ^ n → 0 <= Z.lor a b < 2 ^ n.
Proof.
  intros Hn Ha Hb.
  destruct (Z.eq_dec a 0) as [Ea|Ea]; [subst a; by rewrite Z.lor_0_l|].
  destruct (Z.eq_dec b 0) as [Eb|Eb]; [subst b; by rewrite Z.lor_0_r|].
  assert (0 <= Z.lor a b) as H0 by (apply Z.lor_nonneg; lia).
  split; [done|].
  assert (Z.log2 a < n) by (apply Z.log2_lt_pow2; lia).
  assert (Z.log2 b < n) by (apply Z.log2_lt_pow2; lia).
  destruct (Z.eq_dec (Z.lor a b) 0) as [E|E]; [rewrite E; lia|].
  apply Z.log2_lt_pow2; [lia|].
  rewrite Z.log2_lor by lia. lia.
Qed.

Lemma bor_small (a b : Z) :
  0 <= a < 2 ^ 29 → 0 <= b < 2 ^ 29 → bor a b = Z.lor a b.
Proof.
  intros Ha Hb. pose proof (lor_below 29 a b ltac:(lia) Ha Hb) as H.
  change (2 ^ 29) with 536870912 in *.
  unfold bor. rewrite (toInt32_small a), (toInt32_small b) by lia.
  apply toInt32_small; lia.
Qed.

Lemma shiftl_byte_below (b : byte) (k : Z) :
  0 <= k <= 21 → 0 <= Z.shiftl (byteValue b) k < 2 ^ 29.
Proof.
  intros Hk. pose proof (byteValue_range b) as Hb.
  rewrite Z.shiftl_mul_pow2 by lia.
  assert (0 < 2 ^ k) by (apply Z.pow_pos_nonneg; lia).
  assert (2 ^ k <= 2 ^ 21) by (apply Z.pow_le_mono_r; lia).
  change (2 ^ 21) with 2097152 in *. change (2 ^ 29) with 536870912. nia.
Qed.

Lemma rawSize_range c6 c7 c8 c9 : 0 <= rawSize c6 c7 c8 c9 < 2 ^ 29.
Proof.
  unfold rawSize.
  pose proof (shiftl_byte_below c6 21 ltac:(lia)).
  pose proof (shiftl_byte_below c7 14 ltac:(lia)).
  pose proof (shiftl_byte_below c8 7 ltac:(lia)).
  pose proof (shiftl_byte_below c9 0 ltac:(lia)) as H9. rewrite Z.shiftl_0_r in H9.
  repeat apply lor_below; lia.
Qed.

Lemma code_size_rawSize c6 c7 c8 c9 :
  bor (bor (bor (shl (byteValue c6) 21) (shl (byteValue c7) 14))
           (shl (byteValue c8) 7)) (byteValue c9)
  = rawSize c6 c7 c8 c9.
Proof.
  rewrite shl_byte_21, shl_byte_14, shl_byte_7. unfold rawSize.
  pose proof (shiftl_byte_below c6 21 ltac:(lia)).
  pose proof (shiftl_byte_below c7 14 ltac:(lia)).
  pose proof (shiftl_byte_below c8 7 ltac:(lia)).
  pose proof (shiftl_byte_below c9 0 ltac:(lia)) as H9. rewrite Z.shiftl_0_r in H9.
  pose proof (lor_below 29 _ _ ltac:(lia) H H0) as H67.
  pose proof (lor_below 29 _ _ ltac:(lia) H67 H1) as H678.
  rewrite (bor_small _ _ H H0), (bor_small _ _ H67 H1), (bor_small _ _ H678 H9).
  reflexivity.
Qed.

Lemma lor_shiftl_low (x y n : Z) :
  0 <= n → 0 <= y < 2 ^ n → Z.lor (Z.shiftl x n) y = x * 2 ^ n + y.
Proof.
  intros Hn Hy.
  assert (Z.land (Z.shiftl x n) y = 0) as Hland.
  { apply Z.bits_inj'. intros m Hm. rewrite Z.land_spec, Z.bits_0.
    destruct (Z.lt_ge_cases m n) as [Hlt|Hge].
    - by rewrite Z.shiftl_spec_low.
    - destruct (Z.eq_dec y 0) as [->|Hne];
        [by rewrite Z.bits_0, andb_false_r|].
      rewrite (Z.bits_above_log2 y m), andb_false_r; [done|lia|].
      assert (Z.log2 y < n) by (apply Z.log2_lt_pow2; lia). lia. }
  pose proof (Z.add_lor_land (Z.shiftl x n) y) as H.
  rewrite Hland in H. rewrite Z.shiftl_mul_pow2 in * by lia. lia.
Qed.

Lemma land_low7_clear (b : byte) :
  Z.testbit (byteValue b) 7 = false → Z.land (byteValue b) 0x7f = byteValue b.
Proof. destruct b; (reflexivity || discriminate). Qed.

Lemma low7_below (b : byte) :
  Z.testbit (byteValue b) 7 = false → 0 <= byteValue b < 2 ^ 7.
Proof. destruct b; vm_compute; (discriminate || (split; congruence)). Qed.

(** With bit 7 clear in all four bytes, the unmasked size of the code is
    the synch-safe size. *)
Lemma rawSize_synchSafe c6 c7 c8 c9 :
  Z.testbit (byteValue c6) 7 = false → Z.testbit (byteValue c7) 7 = false →
  Z.testbit (byteValue c8) 7 = false → Z.testbit (byteValue c9) 7 = false →
  rawSize c6 c7 c8 c9
  = synchSafeSize (byteValue c6) (byteValue c7) (byteValue c8) (byteValue c9).
Proof.
  intros H6 H7 H8 H9. unfold rawSize, synchSafeSize.
  rewrite !land_low7_clear by done.
  pose proof (low7_below _ H7). pose proof (low7_below _ H8).
  pose proof (low7_below _ H9).
  change 21 with (14 + 7) at 1. change 14 with (7 + 7) at 2.
  rewrite <- !Z.shiftl_shiftl by lia.
  rewrite <- !Z.shiftl_lor.
  rewrite (lor_shiftl_low _ (byteValue c9)) by lia.
  replace (byteValue c6 ≪ 14) with ((byteValue c6 ≪ 7) ≪ 7)
    by (rewrite Z.shiftl_shiftl by lia; reflexivity).
  rewrite <- Z.shiftl_lor.
  rewrite (lor_shiftl_low _ (byteValue c8)) by lia.
  rewrite (lor_shiftl_low _ (byteValue c7)) by lia.
  change (2 ^ 21) with 2097152. change (2 ^ 14) with 16384.
  change (2 ^ 7) with 128. lia.
Qed.

(** *** The header *)

Lemma getUint8_lookup (view : DataView) (i : Z) (b : byte) :
  0 <= i → view !! Z.to_nat i = Some b → getUint8 view i = Return (byteValue b).
Proof.
  intros Hi Hb. unfold getUint8.
  destruct (Z.ltb_spec i 0) as [?|_]; [lia|]. by rewrite Hb.
Qed.

Lemma getUint8_cases (view : DataView) (i : Z) :
  getUint8 view i = Throw RangeError ∨ ∃ b, getUint8 view i = Return (byteValue b).
Proof.
  unfold getUint8. destruct (i <? 0); [by left|].
  destruct (view !! Z.to_nat i) as [b|]; [right; by exists b|by left].
Qed.

(** A tag [49 44 33] on a buffer of at least ten bytes: the scan starts
    ten bytes after the size that the code reads. *)
Lemma initialOffset_tagged (v3 v4 v5 c6 c7 c8 c9 : byte) (rest : list byte) :
  initialOffset (x49 :: x44 :: x33 :: v3 :: v4 :: v5 :: c6 :: c7 :: c8 :: c9 :: rest)
  = Return (rawSize c6 c7 c8 c9 + 10).
Proof.
  unfold initialOffset.
  rewrite (getUint8_lookup _ 0 x49), (getUint8_lookup _ 1 x44),
    (getUint8_lookup _ 2 x33), (getUint8_lookup _ 6 c6),
    (getUint8_lookup _ 7 c7), (getUint8_lookup _ 8 c8),
    (getUint8_lookup _ 9 c9) by (done || lia).
  cbn [bind]. change (byteValue x49 =? 73) with true.
  change (byteValue x44 =? 68) with true. change (byteValue x33 =? 51) with true.
  cbn [negb]. by rewrite code_size_rawSize.
Qed.

(** Whenever the header is read without an exception, the scan starts at a
    non-negative offset. *)
Lemma initialOffset_nonneg (view : DataView) (offset : Z) :
  initialOffset view = Return offset → 0 <= offset.
Proof.
  unfold initialOffset.
  destruct (getUint8_cases view 0) as [->|[b0 ->]]; [done|]. cbn [bind].
  destruct (negb _); [by intros [= <-]|].
  destruct (getUint8_cases view 1) as [->|[b1 ->]]; [done|]. cbn [bind].
  destruct (negb _); [by intros [= <-]|].
  destruct (getUint8_cases view 2) as [->|[b2 ->]]; [done|]. cbn [bind].
  destruct (negb _); [by intros [= <-]|].
  destruct (getUint8_cases view 6) as [->|[c6 ->]]; [done|]. cbn [bind].
  destruct (getUint8_cases view 7) as [->|[c7 ->]]; [done|]. cbn [bind].
  destruct (getUint8_cases view 8) as [->|[c8 ->]]; [done|]. cbn [bind].
  destruct (getUint8_cases view 9) as [->|[c9 ->]]; [done|]. cbn [bind].
  rewrite code_size_rawSize. intros [= <-].
  pose proof (rawSize_range c6 c7 c8 c9). lia.
Qed.

(** The header is read without an exception on every buffer of at least
    ten bytes. *)
Lemma initialOffset_returns (view : DataView) :
  10 <= byteLength view → ∃ offset, initialOffset view = Return offset.
Proof.
  intros Hlen. unfold initialOffset.
  destruct (getUint8_inside view 0) as (b0 & _ & ->); [lia|]. cbn [bind].
  destruct (negb _); [by eexists|].
  destruct (getUint8_inside view 1) as (b1 & _ & ->); [lia|]. cbn [bind].
  destruct (negb _); [by eexists|].
  destruct (getUint8_inside view 2) as (b2 & _ & ->); [lia|]. cbn [bind].
  destruct (negb _); [by eexists|].
  destruct (getUint8_inside view 6) as (c6 & _ & ->); [lia|].
  destruct (getUint8_inside view 7) as (c7 & _ & ->); [lia|].
  destruct (getUint8_inside view 8) as (c8 & _ & ->); [lia|].
  destruct (getUint8_inside view 9) as (c9 & _ & ->); [lia|].
  cbn [bind]. by eexists.
Qed.

(** *** The scan *)

Lemma frameDuration_not_OutOfFuel (view : DataView) (size offset : Z) :
  frameDuration view size offset ≠ OutOfFuel.
Proof.
  unfold frameDuration.
  destruct (getUint8_cases view (offset + 2)) as [->|[b ->]]; [done|]. cbn [bind].
  destruct (bitrates !! _) as [r|]; [|done]. by destruct (0 <? r).
Qed.

Lemma scan_end (fuel : nat) (view : DataView) (size offset : Z) :
  byteLength view - 4 <= offset → scan fuel view size offset = Return (S754_zero false).
Proof.
  intros H. destruct fuel; cbn [scan];
    by destruct (Z.ltb_spec offset (byteLength view - 4)); [lia|].
Qed.

Lemma scan_step (fuel : nat) (view : DataView) (size offset : Z) :
  0 <= offset < byteLength view - 4 →
  scan (S fuel) view size offset
  = if isSync view offset then frameDuration view size offset
    else scan fuel view size (offset + 1).
Proof.
  intros H. cbn [scan].
  destruct (Z.ltb_spec offset (byteLength view - 4)); [|lia].
  unfold isSync.
  destruct (getUint8_inside view offset) as (b0 & _ & ->); [lia|].
  destruct (getUint8_inside view (offset + 1)) as (b1 & _ & ->); [lia|].
  cbn [bind]. rewrite band_sync_byte.
  destruct (byteValue b0 =? 255); [|done].
  by destruct (Z.land (byteValue b1) 224 =? 224).
Qed.

(** The loop stops at the first sync and evaluates that frame. *)
Lemma scan_finds (view : DataView) (size p : Z) (n fuel : nat) (offset : Z) :
  0 <= offset → p = offset + Z.of_nat n → (n < fuel)%nat →
  p < byteLength view - 4 → isSync view p = true →
  (∀ q, offset <= q < p → isSync view q = false) →
  scan fuel view size offset = frameDuration view size p.
Proof.
  revert fuel offset. induction n as [|n IH]; intros fuel offset H0 Hp Hfuel Hlt Hs Hno.
  - destruct fuel as [|fuel]; [lia|]. assert (p = offset) as -> by lia.
    rewrite scan_step by lia. by rewrite Hs.
  - destruct fuel as [|fuel]; [lia|].
    rewrite scan_step by lia. rewrite Hno by lia.
    apply IH; try lia; [done|]. intros q Hq. apply Hno. lia.
Qed.

(** Without a sync the loop runs to the end and leaves the duration 0. *)
Lemma scan_none (view : DataView) (size : Z) (fuel : nat) (offset : Z) :
  0 <= offset → byteLength view - 4 - offset <= Z.of_nat fuel →
  noSync view offset →
  scan fuel view size offset = Return (S754_zero false).
Proof.
  revert offset. induction fuel as [|fuel IH]; intros offset H0 Hfuel Hno.
  - apply scan_end. lia.
  - destruct (Z.lt_ge_cases offset (byteLength view - 4)) as [Hlt|Hge];
      [|by apply scan_end].
    rewrite scan_step by lia. rewrite Hno by lia.
    apply IH; [lia|lia|]. intros q Hq. apply Hno. lia.
Qed.

(** The length of the buffer is enough fuel: the loop always ends. *)
Lemma scan_terminates (view : DataView) (size : Z) (fuel : nat) (offset : Z) :
  0 <= offset → byteLength view - 4 - offset <= Z.of_nat fuel →
  scan fuel view size offset ≠ OutOfFuel.
Proof.
  revert offset. induction fuel as [|fuel IH]; intros offset H0 Hfuel.
  - by rewrite scan_end by lia.
  - destruct (Z.lt_ge_cases offset (byteLength view - 4)) as [Hlt|Hge];
      [|by rewrite scan_end].
    rewrite scan_step by lia.
    destruct (isSync view offset); [apply frameDuration_not_OutOfFuel|].
    apply IH; lia.
Qed.

Lemma getAudioDuration_terminates (file : Dom.File) :
  getAudioDuration file ≠ OutOfFuel.
Proof.
  unfold getAudioDuration.
  destruct (initialOffset (Dom.arrayBuffer file)) as [offset|e|] eqn:Hoff;
    cbn [bind]; [|done|].
  - pose proof (initialOffset_nonneg _ _ Hoff).
    pose proof (scan_terminates (Dom.arrayBuffer file) (Dom.size file)
                  (length (Dom.arrayBuffer file)) offset) as Hs.
    destruct (scan _ _ _ _); cbn [bind]; try done.
    exfalso. apply Hs; unfold byteLength; [lia|lia|done].
  - exfalso. revert Hoff. unfold initialOffset.
    repeat match goal with
           | |- context [getUint8 ?v ?i] =>
               destruct (getUint8_cases v i) as [->|[? ->]]; cbn [bind]; [done|]
           | |- context [negb ?b] => destruct (negb b); [done|]
           end.
    done.
Qed.

Lemma frameDuration_returns (view : DataView) (size offset : Z) :
  0 <= offset < byteLength view - 4 → ∃ d, frameDuration view size offset = Return d.
Proof.
  intros H. unfold frameDuration.
  destruct (getUint8_inside view (offset + 2)) as (b & _ & ->); [lia|]. cbn [bind].
  destruct (bitrates !! _) as [r|]; [|by eexists]. destruct (0 <? r); by eexists.
Qed.

Lemma scan_returns (view : DataView) (size : Z) (fuel : nat) (offset : Z) :
  0 <= offset → byteLength view - 4 - offset <= Z.of_nat fuel →
  ∃ d, scan fuel view size offset = Return d.
Proof.
  revert offset. induction fuel as [|fuel IH]; intros offset H0 Hfuel.
  - rewrite scan_end by lia. by eexists.
  - destruct (Z.lt_ge_cases offset (byteLength view - 4)) as [Hlt|Hge];
      [|rewrite scan_end by done; by eexists].
    rewrite scan_step by lia.
    destruct (isSync view offset); [by apply frameDuration_returns|].
    apply IH; lia.
Qed.

(** *** The whole estimator *)

Lemma formatDuration_zero : formatDuration (S754_zero false) = "00:00:00"%string.
Proof. reflexivity. Qed.

(** On every file of at least ten bytes the estimator returns a string. *)
Lemma getAudioDuration_returns (file : Dom.File) :
  10 <= Dom.size file → ∃ s, getAudioDuration file = Return s.
Proof.
  intros Hlen. unfold getAudioDuration.
  destruct (initialOffset_returns (Dom.arrayBuffer file) Hlen) as [offset Hoff].
  rewrite Hoff. cbn [bind].
  destruct (scan_returns (Dom.arrayBuffer file) (Dom.size file)
              (length (Dom.arrayBuffer file)) offset) as [d ->].
  - by eapply initialOffset_nonneg.
  - apply initialOffset_nonneg in Hoff. unfold byteLength. lia.
  - by eexists.
Qed.

(** When the header is read and the scan sees no sync, the duration is
    zero. *)
Lemma getAudioDuration_no_sync (file : Dom.File) (start : Z) :
  initialOffset (Dom.arrayBuffer file) = Return start →
  noSync (Dom.arrayBuffer file) start →
  getAudioDuration file = Return "00:00:00"%string.
Proof.
  intros Hoff Hno. unfold getAudioDuration. rewrite Hoff. cbn [bind].
  rewrite scan_none; [done| |unfold byteLength|done].
  - by eapply initialOffset_nonneg.
  - apply initialOffset_nonneg in Hoff. lia.
Qed.

Lemma getAudioDuration_first_sync (file : Dom.File) (start p : Z) :
  initialOffset (Dom.arrayBuffer file) = Return start →
  firstSync (Dom.arrayBuffer file) start p →
  getAudioDuration file
  = let* durationSeconds := frameDuration (Dom.arrayBuffer file) (Dom.size file) p in
    Return (formatDuration durationSeconds).
Proof.
  intros Hoff (Hp & Hs & Hno). unfold getAudioDuration. rewrite Hoff. cbn [bind].
  pose proof (initialOffset_nonneg _ _ Hoff) as H0.
  rewrite (scan_finds _ _ p (Z.to_nat (p - start))); try done; try lia.
  unfold byteLength in Hp. lia.
Qed.

(** When the first frame selects entry 0 or 15 of the table, the duration
    is zero. *)
Lemma getAudioDuration_invalid_bitrate (file : Dom.File) (start p byte2 : Z) :
  initialOffset (Dom.arrayBuffer file) = Return start →
  firstSync (Dom.arrayBuffer file) start p →
  getUint8 (Dom.arrayBuffer file) (p + 2) = Return byte2 →
  bitrateIndex byte2 = 0 ∨ bitrateIndex byte2 = 15 →
  getAudioDuration file = Return "00:00:00"%string.
Proof.
  intros Hoff Hfirst Hb Hidx.
  rewrite (getAudioDuration_first_sync _ _ _ Hoff Hfirst).
  unfold frameDuration. rewrite Hb. cbn [bind].
  destruct (getUint8_cases (Dom.arrayBuffer file) (p + 2)) as [E|[b E]];
    rewrite E in Hb; [done|]. injection Hb as <-.
  rewrite band_shr_byte. by destruct Hidx as [-> | ->].
Qed.

(** C5, at the failing input: on the empty file the very first read,
    [view.getUint8(0)], is outside the view and the estimator fails with a
    [RangeError] instead of returning the zero duration. *)
Theorem getAudioDuration_empty_file :
  getAudioDuration {| Dom.name := "empty.mp3"; Dom.type := "audio/mpeg";
                      Dom.arrayBuffer := [] |}
  = Throw RangeError.
Proof. reflexivity. Qed.

(** The same happens on a tag cut before its size field. *)
Lemma getAudioDuration_truncated_tag :
  getAudioDuration {| Dom.name := "tag.mp3"; Dom.type := "audio/mpeg";
                      Dom.arrayBuffer := [x49; x44; x33; x03; x00; x00; x00] |}
  = Throw RangeError.
Proof. reflexivity. Qed.

(** C6: on a file of 10 000 000 bytes whose first sync selects the table
    entry 128, the loop leaves [durationSeconds] at
    [(file.size * 8) / (128 * 1000)], computed from that first frame alone
    and equal to 625, and the estimator returns "00:10:25". *)
Theorem getAudioDuration_ten_megabytes_128kbps
    (file : Dom.File) (start p byte2 : Z) :
  Dom.size file = 10000000 →
  initialOffset (Dom.arrayBuffer file) = Return start →
  firstSync (Dom.arrayBuffer file) start p →
  getUint8 (Dom.arrayBuffer file) (p + 2) = Return byte2 →
  bitrates !! Z.to_nat (bitrateIndex byte2) = Some 128 →
  scan (length (Dom.arrayBuffer file)) (Dom.arrayBuffer file) (Dom.size file) start
  = Return (div (mul (ofZ (Dom.size file)) (ofZ 8)) (mul (ofZ 128) (ofZ 1000))) ∧
  div (mul (ofZ (Dom.size file)) (ofZ 8)) (mul (ofZ 128) (ofZ 1000)) = ofZ 625 ∧
  getAudioDuration file = Return "00:10:25"%string.
Proof.
  intros Hsize Hoff Hfirst Hb Hrate.
  assert (frameDuration (Dom.arrayBuffer file) (Dom.size file) p
          = Return (div (mul (ofZ (Dom.size file)) (ofZ 8))
                        (mul (ofZ 128) (ofZ 1000)))) as Hframe.
  { unfold frameDuration. rewrite Hb. cbn [bind].
    destruct (getUint8_cases (Dom.arrayBuffer file) (p + 2)) as [E|[b E]];
      rewrite E in Hb; [done|]. injection Hb as <-.
    rewrite band_shr_byte, Hrate. reflexivity. }
  split; [|split].
  - destruct Hfirst as (Hp & Hs & Hno).
    pose proof (initialOffset_nonneg _ _ Hoff) as H0.
    rewrite (scan_finds _ _ p (Z.to_nat (p - start))); try done; try lia.
    unfold byteLength in Hp. lia.
  - rewrite Hsize. vm_compute. reflexivity.
  - rewrite (getAudioDuration_first_sync _ _ _ Hoff Hfirst), Hframe. cbn [bind].
    rewrite Hsize. vm_compute. reflexivity.
Qed.

Lemma getAudioDuration_ten_megabytes_128kbps_witness :
  let file := {| Dom.name := "a.mp3"; Dom.type := "audio/mpeg";
                 Dom.arrayBuffer :=
                   [xff; xfb; x90; x00] ++ repeat x00 (Z.to_nat 9999996) |} in
  Dom.size file = 10000000 ∧
  getAudioDuration file = Return "00:10:25"%string.
Proof.
  intros file.
  assert (Dom.size file = 10000000) as Hsize by (vm_compute; reflexivity).
  split; [exact Hsize|].
  refine (proj2 (proj2
    (getAudioDuration_ten_megabytes_128kbps file 0 0 0x90 Hsize _ _ _ _))).
  - reflexivity.
  - split; [|split].
    + unfold byteLength. change (Z.of_nat _) with (Dom.size file).
      rewrite Hsize. lia.
    + reflexivity.
    + intros q Hq. lia.
  - reflexivity.
  - reflexivity.
Defined.

(** C7, as stated, fails: with size bytes [00 00 00 80] the low seven bits
    of every byte are zero, so a synch-safe reading starts the scan at
    offset 10; the code does not mask bit 7 and starts at 128 + 10. *)
Lemma initialOffset_bit7_counted :
  let view := [x49; x44; x33; x03; x00; x00; x00; x00; x00; x80; xff; xfb; x90; x00] in
  synchSafeSize (byteValue x00) (byteValue x00) (byteValue x00) (byteValue x80) + 10
  = 10 ∧
  initialOffset view = Return 138.
Proof. split; reflexivity. Qed.

(** C7, amended: on every buffer of at least ten bytes that begins with
    [49 44 33] and whose four size bytes have bit 7 clear, the code reads
    the synch-safe size of bytes 6-9 and the scan of [getAudioDuration]
    starts at [size + 10]; with size bytes [00 00 00 00] it starts at
    offset 10. *)
Theorem initialOffset_synchSafe
    (fname ftype : string) (v3 v4 v5 c6 c7 c8 c9 : byte) (rest : list byte) :
  Z.testbit (byteValue c6) 7 = false → Z.testbit (byteValue c7) 7 = false →
  Z.testbit (byteValue c8) 7 = false → Z.testbit (byteValue c9) 7 = false →
  let buffer := x49 :: x44 :: x33 :: v3 :: v4 :: v5 :: c6 :: c7 :: c8 :: c9 :: rest in
  let file := {| Dom.name := fname; Dom.type := ftype; Dom.arrayBuffer := buffer |} in
  let size :=
    synchSafeSize (byteValue c6) (byteValue c7) (byteValue c8) (byteValue c9) in
  initialOffset buffer = Return (size + 10) ∧
  getAudioDuration file
  = (let* durationSeconds := scan (length buffer) buffer (Dom.size file) (size + 10) in
     Return (formatDuration durationSeconds)) ∧
  initialOffset (x49 :: x44 :: x33 :: v3 :: v4 :: v5 :: x00 :: x00 :: x00 :: x00 :: rest)
  = Return 10.
Proof.
  intros H6 H7 H8 H9 buffer file size.
  assert (initialOffset buffer = Return (size + 10)) as Hoff.
  { unfold buffer, size. rewrite initialOffset_tagged.
    by rewrite rawSize_synchSafe. }
  split; [exact Hoff|split].
  - unfold getAudioDuration. cbn [Dom.arrayBuffer file].
    fold buffer. by rewrite Hoff.
  - by rewrite initialOffset_tagged.
Qed.

Lemma initialOffset_synchSafe_witness :
  let buffer := [x49; x44; x33; x03; x00; x00; x00; x00; x02; x01; xff; xfb; x90; x00] in
  initialOffset buffer = Return 267.
Proof.
  exact (proj1 (initialOffset_synchSafe "a.mp3" "audio/mpeg"
                  x03 x00 x00 x00 x00 x02 x01 [xff; xfb; x90; x00]
                  eq_refl eq_refl eq_refl eq_refl)).
Defined.

End EstimatorFacts.

(** ** The worker-side [combine] *)

Section WorkerFacts.
Import Js Worker.

(** An exception of the engine itself passes through unchanged. *)
Lemma combine_engine_throws (e : Error) : combine (Throw e) = Throw e.
Proof. reflexivity. Qed.

(** C8: [combine] fails exactly when the object returned by the engine has
    no [bytes] property, and then throws that very object; otherwise it
    returns the [bytes] and the [type] of the engine's result. *)
Theorem combine_fails_iff_no_bytes (resultFile : Object) :
  ((∃ e, combine (Return resultFile) = Throw e) ↔ resultFile !! "bytes"%string = None) ∧
  (resultFile !! "bytes"%string = None →
   combine (Return resultFile) = Throw (Thrown resultFile)) ∧
  (∀ b, resultFile !! "bytes"%string = Some b →
   combine (Return resultFile)
   = Return {| bytes := b; type := get resultFile "type" |}).
Proof.
  unfold combine, get. cbn [bind].
  destruct (resultFile !! "bytes"%string) as [b|] eqn:Hb.
  - rewrite bool_decide_eq_true_2 by eauto. cbn [negb default].
    split; [|split]; [|done|by intros ? [= <-]].
    split; [by intros [e He]|done].
  - rewrite bool_decide_eq_false_2 by (by intros [? ?]). cbn [negb].
    split; [|split]; [|done|done]. split; [done|by eexists].
Qed.

End WorkerFacts.

(** ** The source-swap scheduler *)

Section SchedulerFacts.
Import Js Scheduler SchedulerSpec.

(** *** What each handler computes *)

Lemma updateAudioSource_busy (file : MixedAudio) (st : State) :
  isSwappingRef st = true →
  updateAudioSource file st = set_pendingUpdateRef (Some file) st.
Proof. intros H. unfold updateAudioSource. by rewrite H. Qed.

Lemma updateAudioSource_idle (file : MixedAudio) (st : State) (m l : HTMLAudioElement) :
  audioRef st = Some m → loaderRef st = Some l → isSwappingRef st = false →
  updateAudioSource file st = preloading file m l st.
Proof.
  destruct st as [a lo sw pe nx bs cs]. cbn. intros -> -> ->. reflexivity.
Qed.

Lemma handleReady_eq (u : Url) (playOk : bool) (st : State) (m l : HTMLAudioElement) :
  audioRef st = Some m → loaderRef st = Some l →
  handleReady u playOk st
  = match pendingUpdateRef st with
    | Some nextFile => updateAudioSource nextFile (swapped u playOk m l st)
    | None => swapped u playOk m l st
    end.
Proof.
  destruct st as [a lo sw pe nx bs cs]. cbn. intros -> ->.
  unfold handleReady, swapped. cbn.
  destruct m as [sr ct pa li]. cbn.
  destruct sr as [old|], pe as [nextFile|], pa, playOk; reflexivity.
Qed.

Lemma swapped_calls (u : Url) (playOk : bool) (m l : HTMLAudioElement) (st : State) :
  calls (swapped u playOk m l st) = calls st ++ revokes (src m) ++ [SetMainSrc u].
Proof. cbn. destruct (src m); cbn; by rewrite <- ?app_assoc. Qed.

Lemma dispatch_one (u : Url) (playOk : bool) (st : State) (l : HTMLAudioElement) :
  loaderRef st = Some l → canplaythrough l = [HandleReady u] →
  dispatch playOk st = handleReady u playOk st.
Proof. intros Hl Hc. unfold dispatch. by rewrite Hl, Hc. Qed.

Lemma dispatch_none (playOk : bool) (st : State) (l : HTMLAudioElement) :
  loaderRef st = Some l → canplaythrough l = [] → dispatch playOk st = st.
Proof. intros Hl Hc. unfold dispatch. by rewrite Hl, Hc. Qed.

(** *** The trace of URL calls *)

Lemma lives_create cs blob u : lives (cs ++ [CreateObjectURL blob u]) = lives cs.
Proof. unfold lives. rewrite omap_app. cbn. by rewrite app_nil_r. Qed.

Lemma released_create cs blob u : released (cs ++ [CreateObjectURL blob u]) = released cs.
Proof. unfold released. rewrite omap_app. cbn. by rewrite app_nil_r. Qed.

Lemma lives_swap cs old u :
  lives (cs ++ revokes old ++ [SetMainSrc u]) = lives cs ++ [u].
Proof. unfold lives. rewrite !omap_app. by destruct old. Qed.

Lemma released_swap cs old u :
  released (cs ++ revokes old ++ [SetMainSrc u])
  = released cs ++ match old with Some v => [v] | None => [] end.
Proof.
  unfold released. rewrite !omap_app. destruct old; cbn; by rewrite ?app_nil_r.
Qed.

Lemma releasedJustBefore_frame cs extra :
  lives (cs ++ extra) = lives cs → releasedJustBefore cs → releasedJustBefore (cs ++ extra).
Proof.
  intros Hl H i u v Hu Hv. rewrite Hl in Hu, Hv.
  destruct (H i u v Hu Hv) as (k & Hk & Hk'). exists k.
  split; apply lookup_app_l_Some; done.
Qed.

Lemma releasedJustBefore_swap cs old u :
  match old with
  | Some v => ∃ rel, lives cs = rel ++ [v]
  | None => lives cs = []
  end →
  releasedJustBefore cs → releasedJustBefore (cs ++ revokes old ++ [SetMainSrc u]).
Proof.
  intros Hold H i a b Ha Hb. rewrite lives_swap in Ha, Hb.
  destruct (decide (S i < length (lives cs))%nat) as [Hlt|Hge].
  - rewrite lookup_app_l in Ha, Hb by lia.
    destruct (H i a b Ha Hb) as (k & Hk & Hk'). exists k.
    split; apply lookup_app_l_Some; done.
  - assert (S i = length (lives cs)) as Hi.
    { apply lookup_lt_Some in Hb. rewrite length_app in Hb. cbn in Hb. lia. }
    rewrite lookup_app_l in Ha by lia.
    rewrite lookup_app_r, Hi, Nat.sub_diag in Hb by lia. injection Hb as <-.
    destruct old as [v|].
    + destruct Hold as [rel Hrel]. rewrite Hrel in Ha, Hi.
      rewrite length_app in Hi. cbn in Hi.
      rewrite lookup_app_r in Ha by lia.
      replace (i - length rel)%nat with O in Ha by lia. injection Ha as <-.
      exists (length cs). cbn.
      split.
      * rewrite lookup_app_r by lia. by rewrite Nat.sub_diag.
      * rewrite lookup_app_r by lia. by replace (S (length cs) - length cs)%nat with 1%nat by lia.
    + rewrite Hold in Hi. cbn in Hi. lia.
Qed.

(** *** The invariant *)

Lemma Inv_mounted : Inv mounted.
Proof.
  exists emptyAudio, emptyAudio. cbn.
  repeat split; try done; try constructor.
Qed.

Lemma Inv_updateAudioSource (file : MixedAudio) (st : State) :
  Inv st → Inv (updateAudioSource file st).
Proof.
  intros (m & l & Hm & Hl & Hsw & Hlive & Hnd & Hrjb).
  destruct (isSwappingRef st) eqn:Hbusy.
  - rewrite updateAudioSource_busy by done.
    exists m, l. cbn. rewrite Hbusy. done.
  - rewrite (updateAudioSource_idle file st m l) by done.
    destruct Hsw as (Hc & Hp & Hlt & Hdom).
    eexists m, _. cbn. split; [done|]. split; [done|]. cbn.
    rewrite lives_create, released_create. split; [|split; [done|split; [done|]]].
    + exists (nextUrl st). rewrite Hc. cbn.
      repeat split; try done. rewrite dom_insert_L. by rewrite Hdom.
    + apply releasedJustBefore_frame; [apply lives_create|done].
Qed.

Lemma Inv_swapped (u : Url) (playOk : bool) (st : State) (m l : HTMLAudioElement) :
  audioRef st = Some m → loaderRef st = Some l → isSwappingRef st = true →
  canplaythrough l = [HandleReady u] →
  Inv st → Inv (swapped u playOk m l st).
Proof.
  intros Hm Hl Hbusy Hc (m' & l' & Hm' & Hl' & Hsw & Hlive & Hnd & Hrjb).
  rewrite Hm in Hm'. rewrite Hl in Hl'. injection Hm' as <-. injection Hl' as <-.
  rewrite Hbusy in Hsw. destruct Hsw as (u' & Hc' & Hsrc & Hnext & Hlt & Hdom).
  rewrite Hc in Hc'. injection Hc' as <-.
  eexists _, _. split; [reflexivity|]. split; [reflexivity|].
  rewrite swapped_calls, lives_swap, released_swap.
  cbn [isSwappingRef swapped canplaythrough removeEventListener src
       pendingUpdateRef nextUrl blobStore].
  rewrite Hc.
  assert (u ∉ lives (calls st)) as Hfresh.
  { intros Hin. rewrite Forall_forall in Hlt. specialize (Hlt _ Hin). lia. }
  split; [|split; [|split]].
  - split; [|split; [done|split]].
    + cbn. by rewrite decide_False by (by intros []).
    + apply Forall_app. split.
      * eapply Forall_impl; [exact Hlt|]. cbn. lia.
      * constructor; [lia|constructor].
    + destruct (src m) as [old|] eqn:Hold; cbn in *.
      * rewrite dom_delete_L, Hdom.
        assert (old ≠ u).
        { intros ->. apply Hfresh. rewrite Hlive. set_solver. }
        set_solver.
      * rewrite Hdom. set_solver.
  - destruct (src m) as [old|]; cbn.
    + rewrite Hlive. by rewrite <- app_assoc.
    + destruct Hlive as [-> ->]. done.
  - apply NoDup_app. split; [done|]. split; [|apply NoDup_singleton].
    intros x Hx Hx'. apply list_elem_of_singleton in Hx'. by subst.
  - apply releasedJustBefore_swap; [|done].
    destruct (src m) as [old|]; [by eexists|by destruct Hlive].
Qed.

Lemma Inv_dispatch (playOk : bool) (st : State) : Inv st → Inv (dispatch playOk st).
Proof.
  intros HI. pose proof HI as (m & l & Hm & Hl & Hsw & _).
  destruct (isSwappingRef st) eqn:Hbusy.
  - destruct Hsw as (u & Hc & _).
    rewrite (dispatch_one u playOk st l), (handleReady_eq u playOk st m l) by done.
    pose proof (Inv_swapped u playOk st m l Hm Hl Hbusy Hc HI).
    destruct (pendingUpdateRef st); [by apply Inv_updateAudioSource|done].
  - destruct Hsw as (Hc & _). by rewrite (dispatch_none playOk st l).
Qed.

Lemma Inv_mainChanged (t : Number) (p : bool) (st : State) :
  Inv st → Inv (mainChanged t p st).
Proof.
  intros (m & l & Hm & Hl & Hsw & Hlive & Hnd & Hrjb).
  unfold mainChanged. rewrite Hm. eexists _, l. cbn.
  split; [reflexivity|]. split; [done|]. cbn. done.
Qed.

Lemma Inv_step (st : State) (e : Event) : Inv st → Inv (step st e).
Proof.
  destruct e; cbn;
    [apply Inv_updateAudioSource|apply Inv_dispatch|apply Inv_mainChanged].
Qed.

Lemma Inv_run (events : list Event) (st : State) : Inv st → Inv (run events st).
Proof.
  revert st. induction events as [|e events IH]; intros st HI; [done|].
  cbn. apply IH. by apply Inv_step.
Qed.

Lemma reachable_Inv (st : State) : reachable st → Inv st.
Proof. intros [events ->]. apply Inv_run, Inv_mounted. Qed.

(** *** Moves of the visible player do not reach the scheduler *)

Lemma forget_mainChanged (t : Number) (p : bool) (st : State) :
  forget (mainChanged t p st) = forget st.
Proof. destruct st as [[m|] lo sw pe nx bs cs]; reflexivity. Qed.

Lemma forget_forget (st : State) : forget (forget st) = forget st.
Proof. apply forget_mainChanged. Qed.

Lemma forget_updateAudioSource (file : MixedAudio) (st : State) :
  forget (updateAudioSource file st) = updateAudioSource file (forget st).
Proof. destruct st as [[m|] [l|] [] pe nx bs cs]; reflexivity. Qed.

Lemma forget_handleReady (u : Url) (ok ok' : bool) (st : State) :
  forget (handleReady u ok st) = forget (handleReady u ok' (forget st)).
Proof.
  destruct st as [[m|] [l|] sw pe nx bs cs]; try reflexivity.
  rewrite (handleReady_eq u ok _ m l) by done.
  unfold forget at 2. cbn [mainChanged audioRef].
  erewrite (handleReady_eq u ok') by (cbn; reflexivity).
  cbn [pendingUpdateRef set_audioRef].
  destruct pe as [nextFile|]; [rewrite !forget_updateAudioSource; f_equal|];
    destruct m as [[old|] ct pa li]; reflexivity.
Qed.

Lemma forget_handlers (hs : list Listener) (ok ok' : bool) (st : State) :
  forget (foldl (λ st h, match h with HandleReady u => handleReady u ok st end) st hs)
  = forget (foldl (λ st h, match h with HandleReady u => handleReady u ok' st end)
              (forget st) hs).
Proof.
  revert ok ok' st. induction hs as [|[u] hs IH]; intros ok ok' st; cbn [foldl].
  - by rewrite forget_forget.
  - rewrite (IH ok ok'), (forget_handleReady u ok ok' st). symmetry. apply IH.
Qed.

Lemma forget_dispatch (ok ok' : bool) (st : State) :
  forget (dispatch ok st) = forget (dispatch ok' (forget st)).
Proof.
  unfold dispatch.
  assert (loaderRef (forget st) = loaderRef st) as ->
    by (destruct st as [[m|] lo sw pe nx bs cs]; reflexivity).
  destruct (loaderRef st) as [l|]; [apply forget_handlers|by rewrite forget_forget].
Qed.

Lemma forget_run_quiet (q : list Event) (st : State) :
  quiet q → forget (run q st) = forget st.
Proof.
  revert st. induction q as [|e q IH]; intros st Hq; [done|].
  unfold quiet in Hq. cbn in Hq. apply andb_prop in Hq as [He Hq].
  destruct e as [| |t p]; try done.
  change (run (MainChanged t p :: q) st) with (run q (mainChanged t p st)).
  rewrite IH by done. apply forget_mainChanged.
Qed.

(** What the scheduler exposes does not depend on the forgotten part. *)
Lemma observe_forget (st : State) :
  isSwappingRef (forget st) = isSwappingRef st ∧
  pendingUpdateRef (forget st) = pendingUpdateRef st ∧
  nextUrl (forget st) = nextUrl st ∧
  blobStore (forget st) = blobStore st ∧
  calls (forget st) = calls st ∧
  inFlight (forget st) = inFlight st ∧
  liveUrl (forget st) = liveUrl st.
Proof. destruct st as [[m|] lo sw pe nx bs cs]; repeat split. Qed.

Lemma observe_same (st st' : State) :
  forget st = forget st' →
  isSwappingRef st = isSwappingRef st' ∧
  pendingUpdateRef st = pendingUpdateRef st' ∧
  nextUrl st = nextUrl st' ∧
  blobStore st = blobStore st' ∧
  calls st = calls st' ∧
  inFlight st = inFlight st' ∧
  liveUrl st = liveUrl st'.
Proof.
  intros H.
  destruct (observe_forget st) as (<- & <- & <- & <- & <- & <- & <-).
  destruct (observe_forget st') as (<- & <- & <- & <- & <- & <- & <-).
  by rewrite H.
Qed.

Lemma observe_run_quiet (q : list Event) (st : State) :
  quiet q →
  isSwappingRef (run q st) = isSwappingRef st ∧
  pendingUpdateRef (run q st) = pendingUpdateRef st ∧
  nextUrl (run q st) = nextUrl st ∧
  blobStore (run q st) = blobStore st ∧
  calls (run q st) = calls st ∧
  inFlight (run q st) = inFlight st ∧
  liveUrl (run q st) = liveUrl st.
Proof. intros Hq. by apply observe_same, forget_run_quiet. Qed.

(** *** What a presented result and a completed preload change *)

Lemma removeEventListener_only (u : Url) (l : HTMLAudioElement) :
  canplaythrough l = [HandleReady u] →
  canplaythrough (removeEventListener (HandleReady u) l) = [].
Proof. intros H. cbn. rewrite H. cbn. by rewrite decide_False by (by intros []). Qed.

Lemma inFlight_busy (st : State) (u : Url) :
  Inv st → inFlight st = [u] → isSwappingRef st = true.
Proof.
  intros (m & l & _ & Hl & Hsw & _) Hu. unfold inFlight in Hu. rewrite Hl in Hu.
  destruct (isSwappingRef st); [done|]. destruct Hsw as [Hc _]. by rewrite Hc in Hu.
Qed.

Lemma present_idle (file : MixedAudio) (st : State) :
  Inv st → isSwappingRef st = false →
  let st' := updateAudioSource file st in
  isSwappingRef st' = true ∧ inFlight st' = [nextUrl st] ∧
  pendingUpdateRef st' = None ∧ nextUrl st' = S (nextUrl st) ∧
  calls st' = calls st ++ [CreateObjectURL (blobOf file) (nextUrl st)] ∧
  liveUrl st' = liveUrl st ∧ audioRef st' = audioRef st.
Proof.
  intros (m & l & Hm & Hl & Hsw & _) Hidle st'. subst st'.
  rewrite Hidle in Hsw. destruct Hsw as (Hc & Hp & _).
  rewrite (updateAudioSource_idle file st m l) by done.
  unfold inFlight, liveUrl. cbn. rewrite Hc, Hm, Hp. done.
Qed.

Lemma present_busy (file : MixedAudio) (st : State) :
  isSwappingRef st = true →
  let st' := updateAudioSource file st in
  isSwappingRef st' = true ∧ inFlight st' = inFlight st ∧
  pendingUpdateRef st' = Some file ∧ nextUrl st' = nextUrl st ∧
  calls st' = calls st ∧ liveUrl st' = liveUrl st ∧ audioRef st' = audioRef st.
Proof. intros Hbusy st'. subst st'. by rewrite updateAudioSource_busy. Qed.

Lemma ready (u : Url) (playOk : bool) (st : State) (m : HTMLAudioElement) :
  Inv st → audioRef st = Some m → inFlight st = [u] →
  let st' := dispatch playOk st in
  audioRef st'
  = Some {| src := Some u; currentTime := currentTime m;
            paused := if paused m then true else negb playOk;
            canplaythrough := canplaythrough m |} ∧
  pendingUpdateRef st' = None ∧
  match pendingUpdateRef st with
  | Some nextFile =>
      isSwappingRef st' = true ∧ inFlight st' = [nextUrl st] ∧
      nextUrl st' = S (nextUrl st) ∧
      calls st' = calls st ++ revokes (src m) ++
                  [SetMainSrc u; CreateObjectURL (blobOf nextFile) (nextUrl st)]
  | None =>
      isSwappingRef st' = false ∧ inFlight st' = [] ∧
      nextUrl st' = nextUrl st ∧
      calls st' = calls st ++ revokes (src m) ++ [SetMainSrc u]
  end.
Proof.
  intros HI Hm Hu st'. subst st'.
  pose proof (inFlight_busy st u HI Hu) as Hbusy.
  destruct HI as (m' & l & Hm' & Hl & Hsw & _).
  rewrite Hm in Hm'. injection Hm' as <-.
  rewrite Hbusy in Hsw. destruct Hsw as (u' & Hc & _).
  unfold inFlight in Hu. rewrite Hl, Hc in Hu. injection Hu as ->.
  rewrite (dispatch_one u playOk st l), (handleReady_eq u playOk st m l) by done.
  pose proof (removeEventListener_only u l Hc) as Hrm.
  destruct (pendingUpdateRef st) as [nextFile|].
  - erewrite updateAudioSource_idle by reflexivity.
    unfold inFlight. cbn [audioRef pendingUpdateRef isSwappingRef loaderRef nextUrl
                          preloading swapped canplaythrough].
    rewrite Hrm. change (calls (preloading ?f ?a ?b ?s))
      with (calls s ++ [CreateObjectURL (blobOf f) (nextUrl s)]).
    rewrite swapped_calls. cbn [nextUrl swapped]. rewrite <- !app_assoc. done.
  - unfold inFlight. cbn [audioRef pendingUpdateRef isSwappingRef loaderRef nextUrl swapped].
    rewrite Hrm, swapped_calls. done.
Qed.

(** *** What happens to the hidden loader *)

Lemma loaderRef_run_quiet (q : list Event) (st : State) :
  quiet q → loaderRef (run q st) = loaderRef st.
Proof.
  intros Hq.
  assert (∀ s, loaderRef (forget s) = loaderRef s) as Hf
    by (intros [[m|] lo sw pe nx bs cs]; reflexivity).
  by rewrite <- (Hf (run q st)), forget_run_quiet, Hf.
Qed.

Lemma present_idle_loader (file : MixedAudio) (st : State) :
  Inv st → isSwappingRef st = false →
  loaderRef (updateAudioSource file st) = Some (loading (nextUrl st)).
Proof.
  intros (m & l & Hm & Hl & Hsw & _) Hidle.
  rewrite Hidle in Hsw. destruct Hsw as (Hc & _).
  rewrite (updateAudioSource_idle file st m l) by done.
  unfold loading. cbn. by rewrite Hc.
Qed.

Lemma present_busy_loader (file : MixedAudio) (st : State) :
  isSwappingRef st = true → loaderRef (updateAudioSource file st) = loaderRef st.
Proof. intros Hbusy. by rewrite updateAudioSource_busy. Qed.

Lemma ready_loader (u : Url) (playOk : bool) (st : State) (l : HTMLAudioElement) :
  Inv st → loaderRef st = Some l → inFlight st = [u] →
  loaderRef (dispatch playOk st)
  = Some match pendingUpdateRef st with
         | Some _ => loading (nextUrl st)
         | None => {| src := src l; currentTime := currentTime l; paused := paused l;
                      canplaythrough := [] |}
         end.
Proof.
  intros HI Hl Hu.
  pose proof (inFlight_busy st u HI Hu) as Hbusy.
  destruct HI as (m & l' & Hm & Hl' & Hsw & _).
  rewrite Hl in Hl'. injection Hl' as <-.
  rewrite Hbusy in Hsw. destruct Hsw as (u' & Hc & _).
  unfold inFlight in Hu. rewrite Hl, Hc in Hu. injection Hu as ->.
  rewrite (dispatch_one u playOk st l), (handleReady_eq u playOk st m l) by done.
  pose proof (removeEventListener_only u l Hc) as Hrm.
  destruct (pendingUpdateRef st) as [nextFile|].
  - erewrite updateAudioSource_idle by reflexivity.
    unfold loading. cbn [loaderRef preloading nextUrl swapped]. by rewrite Hrm.
  - cbn [loaderRef swapped]. f_equal. unfold removeEventListener. f_equal.
    exact Hrm.
Qed.

Lemma present_idle_store (file : MixedAudio) (st : State) :
  Inv st → isSwappingRef st = false →
  blobStore (updateAudioSource file st) = <[nextUrl st := blobOf file]> (blobStore st).
Proof.
  intros (m & l & Hm & Hl & _) Hidle.
  by rewrite (updateAudioSource_idle file st m l).
Qed.

Lemma ready_store (u : Url) (playOk : bool) (st : State) (m : HTMLAudioElement) :
  Inv st → audioRef st = Some m → inFlight st = [u] →
  blobStore (dispatch playOk st)
  = let kept := match src m with
                | Some old => delete old (blobStore st)
                | None => blobStore st
                end in
    match pendingUpdateRef st with
    | Some nextFile => <[nextUrl st := blobOf nextFile]> kept
    | None => kept
    end.
Proof.
  intros HI Hm Hu.
  pose proof (inFlight_busy st u HI Hu) as Hbusy.
  destruct HI as (m' & l & Hm' & Hl & Hsw & _).
  rewrite Hm in Hm'. injection Hm' as <-.
  rewrite Hbusy in Hsw. destruct Hsw as (u' & Hc & _).
  unfold inFlight in Hu. rewrite Hl, Hc in Hu. injection Hu as ->.
  rewrite (dispatch_one u playOk st l), (handleReady_eq u playOk st m l) by done.
  destruct (pendingUpdateRef st) as [nextFile|]; [|done].
  by erewrite updateAudioSource_idle by reflexivity.
Qed.

(** *** The claims about the scheduler *)

(** C1: from an idle scheduler, let R1 be presented, then R2 while R1 is
    still preloading, and let the loader report twice, the visible player
    moving freely in between.  The preload of R1 stays in flight when R2
    arrives: the hidden loader keeps R1's URL as its [src], loaded, with the
    listener for it, and R2 only waits in the pending slot.  The first
    report makes R1 live and only then creates the URL of R2 and starts its
    preload: the loader now holds R2's URL, loaded, with the listener for
    it.  The second report makes R2 live.  The run binds exactly two URLs,
    R1's and then R2's, and ends idle on R2. *)
Theorem two_requests_swap_in_order
    (st : State) (R1 R2 : MixedAudio) (q1 q2 q3 : list Event) (ok1 ok2 : bool) :
  reachable st → isSwappingRef st = false → quiet q1 → quiet q2 → quiet q3 →
  let u1 := nextUrl st in
  let u2 := S u1 in
  let s1 := run q1 (updateAudioSource R1 st) in
  let s2 := run q2 (updateAudioSource R2 s1) in
  let s3 := run q3 (dispatch ok1 s2) in
  let s4 := dispatch ok2 s3 in
  (inFlight s1 = [u1] ∧ loaderRef s1 = Some (loading u1) ∧
   blobStore s1 !! u1 = Some (blobOf R1) ∧
   calls s1 = calls st ++ [CreateObjectURL (blobOf R1) u1]) ∧
  (inFlight s2 = [u1] ∧ loaderRef s2 = Some (loading u1) ∧
   pendingUpdateRef s2 = Some R2 ∧
   calls s2 = calls s1 ∧ liveUrl s2 = liveUrl st) ∧
  (liveUrl s3 = Some u1 ∧ inFlight s3 = [u2] ∧ loaderRef s3 = Some (loading u2) ∧
   blobStore s3 !! u2 = Some (blobOf R2) ∧ pendingUpdateRef s3 = None ∧
   calls s3 = calls s2 ++ revokes (liveUrl st) ++
              [SetMainSrc u1; CreateObjectURL (blobOf R2) u2]) ∧
  (liveUrl s4 = Some u2 ∧ inFlight s4 = [] ∧ isSwappingRef s4 = false ∧
   loaderRef s4 = Some {| src := Some u2; currentTime := S754_zero false;
                          paused := true; canplaythrough := [] |} ∧
   pendingUpdateRef s4 = None ∧
   calls s4 = calls s3 ++ [RevokeObjectURL u1; SetMainSrc u2]) ∧
  lives (calls s4) = lives (calls st) ++ [u1; u2].
Proof.
  intros Hreach Hidle Hq1 Hq2 Hq3 u1 u2 s1 s2 s3 s4.
  assert (u1 = nextUrl st) as Eu1 by reflexivity.
  assert (u2 = S u1) as Eu2 by reflexivity.
  assert (s1 = run q1 (updateAudioSource R1 st)) as Es1 by reflexivity.
  assert (s2 = run q2 (updateAudioSource R2 s1)) as Es2 by reflexivity.
  assert (s3 = run q3 (dispatch ok1 s2)) as Es3 by reflexivity.
  assert (s4 = dispatch ok2 s3) as Es4 by reflexivity.
  clearbody u1 u2 s1 s2 s3 s4.
  pose proof (reachable_Inv st Hreach) as HI.
  (* R1 is presented *)
  pose proof (Inv_run q1 _ (Inv_updateAudioSource R1 st HI)) as HI1.
  destruct (present_idle R1 st HI Hidle) as (Hb1 & Hf1 & Hp1 & Hn1 & Hc1 & Hl1 & _).
  pose proof (present_idle_loader R1 st HI Hidle) as Hlo1.
  pose proof (present_idle_store R1 st HI Hidle) as Hst1.
  destruct (observe_run_quiet q1 (updateAudioSource R1 st) Hq1)
    as (Eb1 & Ep1 & En1 & Est1 & Ec1 & Ef1 & El1).
  pose proof (loaderRef_run_quiet q1 (updateAudioSource R1 st) Hq1) as Elo1.
  rewrite <- Es1 in *. rewrite <- Eu1 in *.
  rewrite Hb1 in Eb1. rewrite Hf1 in Ef1. rewrite Hp1 in Ep1. rewrite Hn1 in En1.
  rewrite Hc1 in Ec1. rewrite Hl1 in El1. rewrite Hlo1 in Elo1. rewrite Hst1 in Est1.
  clear Hb1 Hf1 Hp1 Hn1 Hc1 Hl1 Hlo1 Hst1.
  assert (blobStore s1 !! u1 = Some (blobOf R1)) as Hblob1
    by (rewrite Est1; apply lookup_insert_eq).
  (* R2 is presented *)
  pose proof (Inv_run q2 _ (Inv_updateAudioSource R2 s1 HI1)) as HI2.
  destruct (present_busy R2 s1 Eb1) as (Hb2 & Hf2 & Hp2 & Hn2 & Hc2 & Hl2 & _).
  pose proof (present_busy_loader R2 s1 Eb1) as Hlo2.
  destruct (observe_run_quiet q2 (updateAudioSource R2 s1) Hq2)
    as (Eb2 & Ep2 & En2 & _ & Ec2 & Ef2 & El2).
  pose proof (loaderRef_run_quiet q2 (updateAudioSource R2 s1) Hq2) as Elo2.
  rewrite <- Es2 in *.
  rewrite Hb2 in Eb2. rewrite Hf2, Ef1 in Ef2. rewrite Hp2 in Ep2.
  rewrite Hn2, En1, <- Eu2 in En2. rewrite Hc2 in Ec2. rewrite Hl2, El1 in El2.
  rewrite Hlo2, Elo1 in Elo2.
  clear Hb2 Hf2 Hp2 Hn2 Hc2 Hl2 Hlo2.
  (* the preload of R1 completes *)
  pose proof HI2 as (m2 & l2 & Hm2 & _).
  assert (src m2 = liveUrl st) as Hsrc2.
  { rewrite <- El2. unfold liveUrl. by rewrite Hm2. }
  pose proof (Inv_run q3 _ (Inv_dispatch ok1 s2 HI2)) as HI3.
  destruct (ready u1 ok1 s2 m2 HI2 Hm2 Ef2) as (Ha3 & Hp3 & Hsome).
  pose proof (ready_loader u1 ok1 s2 _ HI2 Elo2 Ef2) as Hlo3.
  pose proof (ready_store u1 ok1 s2 m2 HI2 Hm2 Ef2) as Hst3. cbv zeta in Hst3.
  rewrite Ep2, En2 in Hlo3, Hst3.
  rewrite Ep2, En2, Hsrc2 in Hsome. destruct Hsome as (Hb3 & Hf3 & Hn3 & Hc3).
  destruct (observe_run_quiet q3 (dispatch ok1 s2) Hq3)
    as (Eb3 & Ep3 & En3 & Est3 & Ec3 & Ef3 & El3).
  pose proof (loaderRef_run_quiet q3 (dispatch ok1 s2) Hq3) as Elo3.
  rewrite <- Es3 in *.
  rewrite Hb3 in Eb3. rewrite Hf3 in Ef3. rewrite Hp3 in Ep3. rewrite Hc3 in Ec3.
  rewrite Hlo3 in Elo3. rewrite Hst3 in Est3.
  assert (liveUrl s3 = Some u1) as Hlv3.
  { rewrite El3. unfold liveUrl. by rewrite Ha3. }
  assert (blobStore s3 !! u2 = Some (blobOf R2)) as Hblob3
    by (rewrite Est3; apply lookup_insert_eq).
  clear Hb3 Hf3 Hp3 Hn3 Hc3 El3 Ha3 Hlo3 Hst3.
  (* the preload of R2 completes *)
  pose proof HI3 as (m3 & l3 & Hm3 & _).
  assert (src m3 = Some u1) as Hsrc3.
  { rewrite <- Hlv3. unfold liveUrl. by rewrite Hm3. }
  destruct (ready u2 ok2 s3 m3 HI3 Hm3 Ef3) as (Ha4 & Hp4 & Hnone).
  pose proof (ready_loader u2 ok2 s3 _ HI3 Elo3 Ef3) as Hlo4.
  rewrite Ep3 in Hlo4. cbn [loading src currentTime paused] in Hlo4.
  rewrite Ep3, Hsrc3 in Hnone. destruct Hnone as (Hb4 & Hf4 & Hn4 & Hc4).
  rewrite <- Es4 in *. cbn [revokes app] in Hc4.
  assert (liveUrl s4 = Some u2) as Hlv4 by (unfold liveUrl; by rewrite Ha4).
  repeat split; try done.
  rewrite Hc4, Ec3, Ec2, Ec1. unfold lives. rewrite !omap_app.
  cbn. destruct (liveUrl st); cbn; by rewrite ?app_nil_r, <- ?app_assoc.
Qed.

Lemma two_requests_swap_in_order_witness :
  let R1 := {| bytes := [x52; x49]; type := Wav |} in
  let R2 := {| bytes := [x49; x44]; type := Mpeg |} in
  let s4 := run [Present R1; MainChanged (S754_zero false) false; Present R2;
                 CanPlayThrough true; CanPlayThrough false] mounted in
  lives (calls s4) = [0%nat; 1%nat].
Proof.
  intros R1 R2 s4.
  pose proof (proj2 (proj2 (proj2 (proj2
    (two_requests_swap_in_order mounted R1 R2
       [MainChanged (S754_zero false) false] [] [] true false
       (ex_intro _ [] eq_refl) eq_refl eq_refl eq_refl eq_refl))))) as H.
  vm_compute in H. vm_compute. exact H.
Defined.

(** C2: in every reachable state at most one preload is in flight; and when
    one is, a result presented after an older one (the visible player moving
    freely in between) leaves the scheduler exactly as if the older one had
    never been presented: the newer result alone is pending, the preload in
    flight is untouched, and no URL was created for the older one. *)
Theorem at_most_one_in_flight_latest_pending
    (st : State) (older newer : MixedAudio) (q : list Event) :
  reachable st → quiet q →
  (length (inFlight st) <= 1)%nat ∧
  (∀ u, inFlight st = [u] →
     let st' := updateAudioSource newer (run q (updateAudioSource older st)) in
     st' = updateAudioSource newer (run q st) ∧
     pendingUpdateRef st' = Some newer ∧
     inFlight st' = [u] ∧
     calls st' = calls st).
Proof.
  intros Hreach Hq. pose proof (reachable_Inv st Hreach) as HI. split.
  - destruct HI as (m & l & _ & Hl & Hsw & _). unfold inFlight. rewrite Hl.
    destruct (isSwappingRef st).
    + destruct Hsw as (u & -> & _). cbn. lia.
    + destruct Hsw as (-> & _). cbn. lia.
  - intros u Hu st'. subst st'.
    pose proof (inFlight_busy st u HI Hu) as Hbusy.
    assert (∀ p q' s, quiet q' →
              run q' (set_pendingUpdateRef p s) = set_pendingUpdateRef p (run q' s))
      as Hcomm.
    { intros p q'. induction q' as [|e q' IH]; intros s Hq'; [done|].
      unfold quiet in Hq'. cbn in Hq'. apply andb_prop in Hq' as [He Hq'].
      destruct e as [| |t b]; try done.
      change (run (MainChanged t b :: q') ?x) with (run q' (mainChanged t b x)).
      rewrite <- IH by done. f_equal.
      destruct s as [[m|] lo sw pe nx bs cs]; reflexivity. }
    destruct (observe_run_quiet q st Hq) as (Eb & _ & _ & _ & Ec & Ef & _).
    rewrite (updateAudioSource_busy older st Hbusy), Hcomm by done.
    rewrite (updateAudioSource_busy newer (set_pendingUpdateRef _ _))
      by (cbn [isSwappingRef set_pendingUpdateRef]; congruence).
    rewrite (updateAudioSource_busy newer (run q st)) by congruence.
    split; [by destruct (run q st)|]. split; [done|].
    unfold inFlight in *. cbn [loaderRef calls set_pendingUpdateRef].
    split; congruence.
Qed.

Lemma at_most_one_in_flight_latest_pending_witness :
  let R0 := {| bytes := [x52]; type := Wav |} in
  let Ra := {| bytes := [x49]; type := Mpeg |} in
  let Rb := {| bytes := [x4f]; type := Ogg |} in
  let st := run [Present R0] mounted in
  pendingUpdateRef (run [Present Ra; MainChanged (S754_zero false) false; Present Rb] st)
  = Some Rb.
Proof.
  intros R0 Ra Rb st.
  pose proof (proj1 (proj2 (proj2
    (at_most_one_in_flight_latest_pending st Ra Rb
       [MainChanged (S754_zero false) false]
       (ex_intro _ [Present R0] eq_refl) eq_refl) 0%nat eq_refl))) as H.
  vm_compute in H. vm_compute. exact H.
Defined.

(** C3: when a preload completes, the visible player gets the new URL and
    keeps the position it had just before; it plays afterwards exactly when
    it was playing before and [play()] was allowed.  A refused [play()]
    leaves the player paused on the new URL and changes nothing else: the
    swap is recorded and the scheduler goes on as after a successful one. *)
Theorem swap_keeps_position_and_play_state
    (st : State) (m : HTMLAudioElement) (u : Url) (playOk : bool) :
  reachable st → audioRef st = Some m → inFlight st = [u] →
  let st' := dispatch playOk st in
  ∃ m', audioRef st' = Some m' ∧
        src m' = Some u ∧
        currentTime m' = currentTime m ∧
        paused m' = (if paused m then true else negb playOk) ∧
        lives (calls st') = lives (calls st) ++ [u] ∧
        forget st' = forget (dispatch true st).
Proof.
  intros Hreach Hm Hu st'. subst st'.
  pose proof (reachable_Inv st Hreach) as HI.
  destruct (ready u playOk st m HI Hm Hu) as (Ha & _ & Hcalls).
  eexists. split; [exact Ha|]. cbn. repeat split.
  - destruct (pendingUpdateRef st) as [nextFile|];
      destruct Hcalls as (_ & _ & _ & ->); unfold lives; rewrite !omap_app;
      destruct (src m); cbn; by rewrite ?app_nil_r.
  - rewrite (forget_dispatch playOk true st). symmetry. apply forget_dispatch.
Qed.

Lemma swap_keeps_position_and_play_state_witness :
  let R := {| bytes := [x52]; type := Wav |} in
  let t := S754_finite false 1 0 in
  let st := run [Present R; MainChanged t false] mounted in
  ∃ m', audioRef (dispatch false st) = Some m' ∧ src m' = Some 0%nat ∧
        currentTime m' = t ∧ paused m' = true.
Proof.
  intros R t st.
  destruct (swap_keeps_position_and_play_state st
              {| src := None; currentTime := t; paused := false; canplaythrough := [] |}
              0%nat false) as (m' & H1 & H2 & H3 & H4 & _).
  - by exists [Present R; MainChanged t false].
  - reflexivity.
  - reflexivity.
  - exists m'. repeat split; assumption.
Defined.

(** C4: after any run, if N URLs have been made live then N - 1 URLs have
    been released (none when nothing was made live), namely all of them but
    the one now bound to the visible player; each was released by the call
    just before its successor was bound; none was released twice; and the
    browser's store holds no URL besides the live one and the one being
    preloaded. *)
Theorem swaps_release_all_but_live (events : list Event) :
  let st := run events mounted in
  let cs := calls st in
  length (released cs) = (length (lives cs) - 1)%nat ∧
  match liveUrl st with
  | Some u => lives cs = released cs ++ [u]
  | None => lives cs = [] ∧ released cs = []
  end ∧
  NoDup (released cs) ∧
  releasedJustBefore cs ∧
  dom (blobStore st) = urlSet (liveUrl st) ∪ list_to_set (inFlight st).
Proof.
  intros st cs.
  assert (Inv st) as (m & l & Hm & Hl & Hsw & Hlive & Hnd & Hrjb)
    by (apply reachable_Inv; by exists events).
  assert (liveUrl st = src m) as -> by (unfold liveUrl; by rewrite Hm).
  fold cs in Hlive, Hnd, Hrjb.
  split; [|split; [done|split; [|split; [done|]]]].
  - destruct (src m) as [u|].
    + rewrite Hlive, length_app. cbn. lia.
    + by destruct Hlive as [-> ->].
  - destruct (src m) as [u|].
    + rewrite Hlive in Hnd. by apply NoDup_app in Hnd as [? _].
    + destruct Hlive as [_ ->]. constructor.
  - unfold inFlight. rewrite Hl. destruct (isSwappingRef st).
    + destruct Hsw as (u & -> & _ & _ & _ & ->). cbn. set_solver.
    + destruct Hsw as (-> & _ & _ & ->). cbn. set_solver.
Qed.

End SchedulerFacts.

(** ** The orchestration handlers *)

Section OrchestratorFacts.
Import Js Orchestrator.

(** C9, as stated, fails: after an upload whose mix has gone live, [reset]
    had a combiner to release and a live URL to revoke, yet it makes no
    [free] call, and the URL is still bound to the player and still in the
    browser's store. *)
Lemma reset_releases_nothing :
  let file := {| Dom.name := "a.mp3"; Dom.type := "audio/mpeg";
                 Dom.arrayBuffer := [xff; xfb; x90; x00; x00; x00] |} in
  let mix := {| Scheduler.bytes := [x49; x44; x33]; Scheduler.type := Mpeg |} in
  let uploaded := (handleFileChange [file] (Return 7%nat) (λ _, "k3j9x2a"%string) mounted).1 in
  let app := playerEvent (Scheduler.CanPlayThrough true) (combineResolved mix uploaded) in
  audioCombinerRef app = Some 7%nat ∧
  SchedulerSpec.liveUrl (player app) = Some 0%nat ∧
  files (reset app) = [] ∧
  freed (workerCalls (reset app)) = [] ∧
  SchedulerSpec.liveUrl (player (reset app)) = Some 0%nat ∧
  Scheduler.blobStore (player (reset app)) !! 0%nat = Some (Scheduler.blobOf mix) ∧
  Scheduler.released (Scheduler.calls (player (reset app))) = [].
Proof. vm_compute. repeat split. Qed.

(** C9, amended: [reset] empties the track list, drops the reference to
    the combiner and clears the file input; it makes no call on the worker
    and leaves the scheduler, both players and every object URL as they
    were. *)
Theorem reset_clears_tracks_and_reference (app : App) :
  let app' := reset app in
  files app' = [] ∧
  audioCombinerRef app' = None ∧
  fileInputRef app' = (λ _, ""%string) <$> fileInputRef app ∧
  workerCalls app' = workerCalls app ∧
  player app' = player app.
Proof. destruct app as [fs c [v|] p ws]; repeat split. Qed.

(** C10: without a combiner, [updateVolume] sets the volume of the tracks
    whose identifier is the given one and changes nothing else: the list
    keeps its length and order, every other track and every other field is
    as before, no call is made on the worker, and the scheduler with its
    players is untouched. *)
Theorem updateVolume_without_combiner (id' : string) (value : Z) (app : App) :
  audioCombinerRef app = None →
  let app' := updateVolume id' value app in
  length (files app') = length (files app) ∧
  (∀ i f, files app !! i = Some f →
     ∃ f', files app' !! i = Some f' ∧
           id f' = id f ∧ name f' = name f ∧ duration f' = duration f ∧
           volume f' = (if bool_decide (id f = id') then value else volume f)) ∧
  audioCombinerRef app' = None ∧
  fileInputRef app' = fileInputRef app ∧
  workerCalls app' = workerCalls app ∧
  player app' = player app.
Proof.
  intros Hnone app'. subst app'. unfold updateVolume.
  cbn [audioCombinerRef setFiles]. rewrite Hnone.
  cbn [files setFiles audioCombinerRef fileInputRef workerCalls player].
  split; [by rewrite length_map|]. split; [|done].
  intros i f Hf. rewrite list_lookup_fmap, Hf. cbn [fmap option_fmap option_map].
  eexists. split; [reflexivity|]. by destruct (bool_decide (id f = id')).
Qed.

Lemma updateVolume_without_combiner_witness :
  let a := {| id := "k3j9x2a"; name := "drums.mp3"; duration := "00:03:10";
              volume := 100 |} in
  let b := {| id := "p0q8w1z"; name := "bass.mp3"; duration := "00:03:10";
              volume := 100 |} in
  let app := setFiles [a; b] mounted in
  let app' := updateVolume "p0q8w1z" 40 app in
  workerCalls app' = workerCalls app ∧ player app' = player app.
Proof.
  intros a b app app'.
  exact (proj2 (proj2 (proj2 (proj2
           (updateVolume_without_combiner "p0q8w1z" 40 app eq_refl))))).
Defined.

(** With a combiner the same handler does issue a [combine] call. *)
Lemma updateVolume_with_combiner (id' : string) (value : Z) (app : App) (c : Combiner) :
  audioCombinerRef app = Some c →
  ∃ volumes, workerCalls (updateVolume id' value app)
             = workerCalls app ++ [Combine c volumes].
Proof.
  intros Hc. unfold updateVolume. cbn [audioCombinerRef setFiles]. rewrite Hc.
  by eexists.
Qed.

End OrchestratorFacts.



(** ** Further properties of the duration estimator *)

Section EstimatorCoverage.
Import Js Estimator Spec.

Lemma byteValue_x49 (b : byte) : (byteValue b =? 0x49) = true → b = x49.
Proof. destruct b; intros H; vm_compute in H; congruence. Qed.

Lemma byteValue_x44 (b : byte) : (byteValue b =? 0x44) = true → b = x44.
Proof. destruct b; intros H; vm_compute in H; congruence. Qed.

Lemma byteValue_x33 (b : byte) : (byteValue b =? 0x33) = true → b = x33.
Proof. destruct b; intros H; vm_compute in H; congruence. Qed.

(** The header reads fail exactly on a truncated header. *)
Lemma initialOffset_spec (view : DataView) :
  (truncatedHeader view ∧ initialOffset view = Throw RangeError) ∨
  (¬ truncatedHeader view ∧ ∃ offset, initialOffset view = Return offset).
Proof.
  destruct view as [|b0 r0]; [left; split; [by left|reflexivity]|].
  unfold initialOffset. rewrite (getUint8_lookup _ 0 b0) by done. cbn [bind].
  destruct (byteValue b0 =? 73) eqn:E0; cbn [negb].
  2:{ right. split; [|by eexists].
      intros [?|[?|[?|(rest & ? & _)]]]; simplify_eq; by vm_compute in E0. }
  apply byteValue_x49 in E0 as ->.
  destruct r0 as [|b1 r1]; [left; split; [by right; left|reflexivity]|].
  rewrite (getUint8_lookup _ 1 b1) by done. cbn [bind].
  destruct (byteValue b1 =? 68) eqn:E1; cbn [negb].
  2:{ right. split; [|by eexists].
      intros [?|[?|[?|(rest & ? & _)]]]; simplify_eq; by vm_compute in E1. }
  apply byteValue_x44 in E1 as ->.
  destruct r1 as [|b2 r2]; [left; split; [by right; right; left|reflexivity]|].
  rewrite (getUint8_lookup _ 2 b2) by done. cbn [bind].
  destruct (byteValue b2 =? 51) eqn:E2; cbn [negb].
  2:{ right. split; [|by eexists].
      intros [?|[?|[?|(rest & ? & _)]]]; simplify_eq; by vm_compute in E2. }
  apply byteValue_x33 in E2 as ->.
  destruct r2 as [|v3 [|v4 [|v5 [|c6 [|c7 [|c8 [|c9 rest]]]]]]];
    try (left; split; [right; right; right; eexists; split; [reflexivity|cbn; lia]
                      |reflexivity]).
  right. split.
  - intros [?|[?|[?|(rest' & ? & Hlen)]]]; simplify_eq. cbn in Hlen. lia.
  - pose proof (initialOffset_tagged v3 v4 v5 c6 c7 c8 c9 rest) as H.
    unfold initialOffset in H.
    rewrite (getUint8_lookup _ 0 x49), (getUint8_lookup _ 1 x44),
      (getUint8_lookup _ 2 x33) in H by done.
    eexists. exact H.
Qed.

(** X1: the estimator fails exactly when the buffer ends inside the header
    it reads (an empty buffer, one cut after [49] or [49 44], or a tag
    [49 44 33] shorter than ten bytes); the failure is always a
    [RangeError], and on every other buffer it returns a string. *)
Theorem getAudioDuration_throws_iff_truncated (file : Dom.File) :
  ((∃ e, getAudioDuration file = Throw e) ↔ truncatedHeader (Dom.arrayBuffer file)) ∧
  (∀ e, getAudioDuration file = Throw e → e = RangeError) ∧
  ((∃ s, getAudioDuration file = Return s) ↔ ¬ truncatedHeader (Dom.arrayBuffer file)).
Proof.
  unfold getAudioDuration.
  destruct (initialOffset_spec (Dom.arrayBuffer file)) as [[Ht ->]|[Hn [offset Hoff]]];
    cbn [bind].
  - split; [|split].
    + split; [done|by eexists].
    + by intros e [= <-].
    + split; [by intros [s ?]|done].
  - rewrite Hoff. cbn [bind].
    pose proof (initialOffset_nonneg _ _ Hoff) as H0.
    destruct (scan_returns (Dom.arrayBuffer file) (Dom.size file)
                (length (Dom.arrayBuffer file)) offset) as [d ->];
      [done|unfold byteLength; lia|]. cbn [bind].
    split; [|split].
    + split; [by intros [e ?]|done].
    + by intros e.
    + split; [done|by eexists].
Qed.

(** X2: when the first sync seen by the scan selects a table entry
    [bitrate] greater than zero, the estimate is the formatted quotient
    [(file.size * 8) / (bitrate * 1000)], whatever follows that frame. *)
Theorem getAudioDuration_first_frame_bitrate
    (file : Dom.File) (start p byte2 bitrate : Z) :
  initialOffset (Dom.arrayBuffer file) = Return start →
  firstSync (Dom.arrayBuffer file) start p →
  getUint8 (Dom.arrayBuffer file) (p + 2) = Return byte2 →
  bitrates !! Z.to_nat (bitrateIndex byte2) = Some bitrate →
  0 < bitrate →
  getAudioDuration file
  = Return (formatDuration
              (div (mul (ofZ (Dom.size file)) (ofZ 8)) (mul (ofZ bitrate) (ofZ 1000)))).
Proof.
  intros Hoff Hfirst Hb Hrate Hpos.
  rewrite (getAudioDuration_first_sync _ _ _ Hoff Hfirst).
  unfold frameDuration. rewrite Hb. cbn [bind].
  destruct (getUint8_cases (Dom.arrayBuffer file) (p + 2)) as [E|[b E]];
    rewrite E in Hb; [done|]. injection Hb as <-.
  rewrite band_shr_byte, Hrate.
  destruct (Z.ltb_spec 0 bitrate); [done|lia].
Qed.

Lemma getAudioDuration_first_frame_bitrate_witness :
  getAudioDuration {| Dom.name := "a.mp3"; Dom.type := "audio/mpeg";
                      Dom.arrayBuffer := [x00; xff; xe3; x50; x00; x00; x00; x00] |}
  = Return (formatDuration
              (div (mul (ofZ 8) (ofZ 8)) (mul (ofZ 64) (ofZ 1000)))).
Proof.
  refine (getAudioDuration_first_frame_bitrate
            {| Dom.name := "a.mp3"; Dom.type := "audio/mpeg";
               Dom.arrayBuffer := [x00; xff; xe3; x50; x00; x00; x00; x00] |}
            0 1 0x50 64 eq_refl _ eq_refl eq_refl eq_refl).
  split; [vm_compute; split; congruence|]. split; [reflexivity|].
  intros q Hq. assert (q = 0) as -> by lia. reflexivity.
Defined.

(** X3: when the header is read and either the scan sees no sync, or the
    first sync it sees selects entry 0 or 15 of the table, the estimate is
    "00:00:00"; in the second case later frames are not looked at. *)
Theorem getAudioDuration_zero (file : Dom.File) (start : Z) :
  initialOffset (Dom.arrayBuffer file) = Return start →
  noSync (Dom.arrayBuffer file) start ∨
  (∃ p byte2, firstSync (Dom.arrayBuffer file) start p ∧
              getUint8 (Dom.arrayBuffer file) (p + 2) = Return byte2 ∧
              (bitrateIndex byte2 = 0 ∨ bitrateIndex byte2 = 15)) →
  getAudioDuration file = Return "00:00:00"%string.
Proof.
  intros Hoff [Hno|(p & byte2 & Hfirst & Hb & Hidx)].
  - by eapply getAudioDuration_no_sync.
  - by eapply getAudioDuration_invalid_bitrate.
Qed.

Lemma getAudioDuration_zero_witness :
  getAudioDuration {| Dom.name := "a.mp3"; Dom.type := "audio/mpeg";
                      Dom.arrayBuffer := [xff; xfb; xf0; x00; x00; xff; xfb; x90; x00; x00] |}
  = Return "00:00:00"%string.
Proof.
  refine (getAudioDuration_zero
            {| Dom.name := "a.mp3"; Dom.type := "audio/mpeg";
               Dom.arrayBuffer := [xff; xfb; xf0; x00; x00; xff; xfb; x90; x00; x00] |}
            0 eq_refl (or_intror (ex_intro _ 0 (ex_intro _ 0xf0 _)))).
  split; [|split; [reflexivity|by right]].
  split; [vm_compute; split; congruence|]. split; [reflexivity|].
  intros q Hq. lia.
Defined.

(** X4: a tag whose size field points at or past the last four bytes of the
    buffer leaves nothing to scan: the estimate is "00:00:00" whatever the
    buffer holds, sync bytes inside the tag included. *)
Theorem getAudioDuration_tag_covers_buffer
    (fname ftype : string) (v3 v4 v5 c6 c7 c8 c9 : byte) (rest : list byte) :
  let buffer := x49 :: x44 :: x33 :: v3 :: v4 :: v5 :: c6 :: c7 :: c8 :: c9 :: rest in
  byteLength buffer - 4 <= rawSize c6 c7 c8 c9 + 10 →
  getAudioDuration {| Dom.name := fname; Dom.type := ftype; Dom.arrayBuffer := buffer |}
  = Return "00:00:00"%string.
Proof.
  intros buffer Hlen. unfold getAudioDuration. cbn [Dom.arrayBuffer]. fold buffer.
  unfold buffer at 1. rewrite initialOffset_tagged. cbn [bind].
  by rewrite scan_end.
Qed.

Lemma getAudioDuration_tag_covers_buffer_witness :
  getAudioDuration {| Dom.name := "a.mp3"; Dom.type := "audio/mpeg";
                      Dom.arrayBuffer :=
                        [x49; x44; x33; x03; x00; x00; x00; x00; x00; x08;
                         xff; xfb; x90; x00; xff; xfb; x90; x00; x00; x00] |}
  = Return "00:00:00"%string.
Proof.
  refine (getAudioDuration_tag_covers_buffer "a.mp3" "audio/mpeg"
            x03 x00 x00 x00 x00 x00 x08
            [xff; xfb; x90; x00; xff; xfb; x90; x00; x00; x00] _).
  vm_compute. congruence.
Defined.

End EstimatorCoverage.

(** ** Further properties of the source-swap scheduler *)

Section SchedulerCoverage.
Import Js Scheduler SchedulerSpec.

Lemma run_snoc (events : list Event) (e : Event) (st : State) :
  run (events ++ [e]) st = step (run events st) e.
Proof. unfold run. by rewrite foldl_app. Qed.

Lemma lastPresented_snoc (events : list Event) (e : Event) :
  lastPresented (events ++ [e])
  = match e with Present f => Some f | _ => lastPresented events end.
Proof.
  unfold lastPresented. rewrite omap_app.
  destruct e; cbn; by rewrite ?app_nil_r, ?last_snoc.
Qed.

Lemma live_is_not_in_flight (st : State) (u : Url) :
  Inv st → inFlight st = [u] → liveUrl st ≠ Some u.
Proof.
  intros HI Hu. pose proof (inFlight_busy st u HI Hu) as Hbusy.
  destruct HI as (m & l & Hm & Hl & Hsw & Hlive & _).
  rewrite Hbusy in Hsw. destruct Hsw as (u' & Hc & _ & _ & Hlt & _).
  unfold inFlight in Hu. rewrite Hl, Hc in Hu. injection Hu as ->.
  unfold liveUrl. rewrite Hm. cbn. intros Hsrc. rewrite Hsrc in Hlive.
  rewrite Hlive, Forall_app, Forall_singleton in Hlt. lia.
Qed.

Lemma dispatch_idle (playOk : bool) (st : State) :
  Inv st → isSwappingRef st = false → dispatch playOk st = st.
Proof.
  intros (m & l & _ & Hl & Hsw & _) Hidle. rewrite Hidle in Hsw.
  destruct Hsw as (Hc & _). by apply (dispatch_none playOk st l).
Qed.

Lemma busy_inFlight (st : State) :
  Inv st → isSwappingRef st = true →
  ∃ u l, loaderRef st = Some l ∧ src l = Some u ∧ inFlight st = [u] ∧
         u ∈ dom (blobStore st).
Proof.
  intros (m & l & _ & Hl & Hsw & _) Hbusy. rewrite Hbusy in Hsw.
  destruct Hsw as (u & Hc & Hsrc & _ & _ & Hdom).
  exists u, l. unfold inFlight. rewrite Hl, Hc, Hdom.
  repeat split; try done. set_solver.
Qed.

(** X5: after any run the scheduler is in one of two modes.  Either the
    lock [isSwappingRef] is free, no listener is registered and nothing is
    pending; or it is held, exactly one listener is registered, the hidden
    loader holds the URL that listener will bind, that URL is still in the
    browser's store, and it is not the URL of the visible player. *)
Theorem scheduler_idle_or_preloading (events : list Event) :
  let st := run events mounted in
  if isSwappingRef st
  then ∃ u l blob, loaderRef st = Some l ∧ src l = Some u ∧ inFlight st = [u] ∧
                   blobStore st !! u = Some blob ∧ liveUrl st ≠ Some u
  else inFlight st = [] ∧ pendingUpdateRef st = None.
Proof.
  intros st. assert (Inv st) as HI by (apply reachable_Inv; by exists events).
  destruct (isSwappingRef st) eqn:Hmode.
  - destruct (busy_inFlight st HI Hmode) as (u & l & Hl & Hsrc & Hu & Hdom).
    apply elem_of_dom in Hdom as [blob Hblob].
    exists u, l, blob. repeat split; try done. by apply live_is_not_in_flight.
  - destruct HI as (m & l & _ & Hl & Hsw & _). rewrite Hmode in Hsw.
    destruct Hsw as (Hc & Hp & _). unfold inFlight. by rewrite Hl, Hc.
Qed.

(** X6: the result presented last always wins.  After any run, if nothing
    was presented nothing is live; otherwise, when the lock is free the
    visible player is bound to a URL of the last presented result, and when
    it is held that result is either the pending one or the one being
    preloaded. *)
Theorem latest_presented_wins (events : list Event) :
  let st := run events mounted in
  match lastPresented events with
  | None => liveUrl st = None ∧ isSwappingRef st = false
  | Some f =>
      if isSwappingRef st
      then pendingUpdateRef st = Some f ∨
           (pendingUpdateRef st = None ∧
            ∃ u, inFlight st = [u] ∧ blobStore st !! u = Some (blobOf f))
      else ∃ u, liveUrl st = Some u ∧ blobStore st !! u = Some (blobOf f)
  end.
Proof.
  cbv zeta. induction events as [|e events IH] using rev_ind; [done|].
  rewrite run_snoc, lastPresented_snoc.
  assert (Inv (run events mounted)) as HI by (apply reachable_Inv; by eexists).
  set (st := run events mounted) in *.
  destruct e as [file|playOk|t p]; cbn [step].
  - (* a result is presented *)
    destruct (isSwappingRef st) eqn:Hmode.
    + destruct (present_busy file st Hmode) as (-> & _ & -> & _). by left.
    + destruct (present_idle file st HI Hmode) as (-> & Hf & Hp & _).
      right. split; [done|]. exists (nextUrl st). split; [done|].
      rewrite present_idle_store by done. apply lookup_insert_eq.
  - (* the loader reports *)
    destruct (isSwappingRef st) eqn:Hmode.
    2:{ rewrite dispatch_idle by done. by rewrite Hmode. }
    destruct (busy_inFlight st HI Hmode) as (u & l & _ & _ & Hu & _).
    pose proof HI as (m & _ & Hm & _).
    destruct (ready u playOk st m HI Hm Hu) as (Ha & Hp & Hnext).
    pose proof (ready_store u playOk st m HI Hm Hu) as Hstore. cbv zeta in Hstore.
    destruct (lastPresented events) as [f|]; [|by destruct IH].
    destruct (pendingUpdateRef st) as [nextFile|] eqn:Hpe.
    + destruct Hnext as (-> & Hf & _).
      destruct IH as [[= ->]|[? _]]; [|done].
      right. split; [done|]. exists (nextUrl st). split; [done|].
      rewrite Hstore. apply lookup_insert_eq.
    + destruct Hnext as (-> & _).
      destruct IH as [?|(_ & u' & Hu' & Hblob)]; [done|].
      rewrite Hu in Hu'. injection Hu' as <-.
      exists u. split; [unfold liveUrl; by rewrite Ha|].
      rewrite Hstore. destruct (src m) as [old|] eqn:Hsrc; [|done].
      rewrite lookup_delete_ne; [done|].
      intros ->. apply (live_is_not_in_flight st u HI Hu).
      unfold liveUrl. by rewrite Hm.
  - (* the visible player moves *)
    destruct (observe_same (mainChanged t p st) st (forget_mainChanged t p st))
      as (-> & -> & _ & -> & _ & -> & ->).
    exact IH.
Qed.

(** X7: while a preload is in flight and the loader does not report, any
    number of presented results only overwrite the pending slot: the preload
    in flight, the calls made, the URL store and the visible player's URL
    stay as they were, and the pending result is the one presented last. *)
Theorem presents_without_ready_coalesce (st : State) (u : Url) (events : list Event) :
  reachable st → inFlight st = [u] → noReady events →
  let st' := run events st in
  inFlight st' = [u] ∧ calls st' = calls st ∧ blobStore st' = blobStore st ∧
  liveUrl st' = liveUrl st ∧
  pendingUpdateRef st'
  = match lastPresented events with
    | Some f => Some f
    | None => pendingUpdateRef st
    end.
Proof.
  intros Hreach. cbv zeta. pose proof (reachable_Inv st Hreach) as HI. clear Hreach.
  induction events as [|e events IH] using rev_ind; intros Hu Hno; [done|].
  unfold noReady in Hno. rewrite forallb_app in Hno.
  apply andb_prop in Hno as [Hno He]. cbn in He. rewrite andb_true_r in He.
  destruct (IH Hu Hno) as (IHf & IHc & IHs & IHl & IHp).
  rewrite run_snoc, lastPresented_snoc.
  assert (Inv (run events st)) as HI' by by apply Inv_run.
  destruct e as [file|playOk|t p]; [|done|]; cbn [step].
  - pose proof (inFlight_busy _ u HI' IHf) as Hbusy.
    rewrite (updateAudioSource_busy file _ Hbusy).
    repeat split; done.
  - destruct (observe_same (mainChanged t p (run events st)) (run events st)
                (forget_mainChanged t p _)) as (_ & -> & _ & -> & -> & -> & ->).
    repeat split; done.
Qed.

Lemma presents_without_ready_coalesce_witness :
  let R0 := {| bytes := [x52]; type := Wav |} in
  let Ra := {| bytes := [x49]; type := Mpeg |} in
  let Rb := {| bytes := [x4f]; type := Ogg |} in
  let Rc := {| bytes := [x66]; type := Mpeg |} in
  pendingUpdateRef
    (run [Present Ra; Present Rb; MainChanged (S754_zero false) false; Present Rc]
         (run [Present R0] mounted))
  = Some Rc.
Proof.
  intros R0 Ra Rb Rc.
  pose proof (proj2 (proj2 (proj2 (proj2
    (presents_without_ready_coalesce (run [Present R0] mounted) 0%nat
       [Present Ra; Present Rb; MainChanged (S754_zero false) false; Present Rc]
       (ex_intro _ [Present R0] eq_refl) eq_refl eq_refl))))) as H.
  vm_compute in H. vm_compute. exact H.
Defined.

(** X8: a [canplaythrough] that fires again for the same load is ignored:
    when nothing is pending, a second report right after the first changes
    nothing, because [handleReady] removed itself. *)
Theorem second_canplaythrough_ignored (st : State) (ok ok' : bool) :
  reachable st → pendingUpdateRef st = None →
  dispatch ok' (dispatch ok st) = dispatch ok st.
Proof.
  intros Hreach Hp. pose proof (reachable_Inv st Hreach) as HI.
  pose proof (Inv_dispatch ok st HI) as HI'.
  apply dispatch_idle; [done|].
  destruct (isSwappingRef st) eqn:Hmode.
  - destruct (busy_inFlight st HI Hmode) as (u & l & _ & _ & Hu & _).
    pose proof HI as (m & _ & Hm & _).
    destruct (ready u ok st m HI Hm Hu) as (_ & _ & Hnext).
    rewrite Hp in Hnext. by destruct Hnext.
  - by rewrite dispatch_idle.
Qed.

Lemma second_canplaythrough_ignored_witness :
  let R := {| bytes := [x52]; type := Wav |} in
  let st := run [Present R] mounted in
  dispatch false (dispatch true st) = dispatch true st.
Proof.
  intros R st.
  exact (second_canplaythrough_ignored st true false
           (ex_intro _ [Present R] eq_refl) eq_refl).
Defined.

(** X9: when one of the two element refs is null, [updateAudioSource] still
    takes the lock and creates the URL, registers nothing, and never gives
    the lock back: whatever happens afterwards the lock stays held, the URL
    stays in the store unreleased, and nothing is ever bound or revoked. *)
Theorem null_ref_blocks_scheduler
    (st : State) (file : MixedAudio) (events : list Event) :
  audioRef st = None ∨ loaderRef st = None → isSwappingRef st = false →
  let st' := run events (updateAudioSource file st) in
  isSwappingRef st' = true ∧
  calls st' = calls st ++ [CreateObjectURL (blobOf file) (nextUrl st)] ∧
  blobStore st' = <[nextUrl st := blobOf file]> (blobStore st).
Proof.
  intros Hnull Hidle. cbv zeta.
  assert (∀ s, (audioRef s = None ∨ loaderRef s = None) → isSwappingRef s = true →
               ∀ e, let s' := step s e in
                    (audioRef s' = None ∨ loaderRef s' = None) ∧
                    isSwappingRef s' = true ∧ calls s' = calls s ∧
                    blobStore s' = blobStore s) as Hstep.
  { intros s Hn Hb e. destruct e as [f|ok|t p]; cbn [step]; cbv zeta.
    - rewrite updateAudioSource_busy by done. done.
    - assert (dispatch ok s = s) as ->; [|done].
      unfold dispatch. destruct (loaderRef s) as [l|] eqn:Hl; [|done].
      destruct Hn as [Hn|Hn]; [|done].
      induction (canplaythrough l) as [|[u'] hs IHhs]; [done|].
      cbn [foldl]. unfold handleReady at 2. by rewrite Hn.
    - unfold mainChanged. destruct (audioRef s) as [m|] eqn:Hm.
      + destruct Hn as [Hn|Hn]; [done|]. cbn. by split; [right|].
      + rewrite Hm. by split; [left|]. }
  assert (∀ es s, (audioRef s = None ∨ loaderRef s = None) → isSwappingRef s = true →
                  isSwappingRef (run es s) = true ∧ calls (run es s) = calls s ∧
                  blobStore (run es s) = blobStore s) as Hrun.
  { induction es as [|e es IH]; intros s Hn Hb; [done|].
    destruct (Hstep s Hn Hb e) as (Hn' & Hb' & Hc' & Hs').
    change (run (e :: es) s) with (run es (step s e)).
    destruct (IH _ Hn' Hb') as (-> & -> & ->). done. }
  destruct st as [a lo sw pe nx bs cs]. cbn in Hnull, Hidle. subst sw.
  destruct (Hrun events (updateAudioSource file
              {| audioRef := a; loaderRef := lo; isSwappingRef := false;
                 pendingUpdateRef := pe; nextUrl := nx; blobStore := bs;
                 calls := cs |})) as (-> & -> & ->).
  - destruct Hnull as [Hn|Hn]; cbn in Hn; subst; [by left|].
    destruct a; by right.
  - by destruct a as [m|], lo as [l|].
  - by destruct a as [m|], lo as [l|]; destruct Hnull.
Qed.

Lemma null_ref_blocks_scheduler_witness :
  let R := {| bytes := [x52]; type := Wav |} in
  let R' := {| bytes := [x49]; type := Mpeg |} in
  let st := set_loaderRef None mounted in
  isSwappingRef (run [CanPlayThrough true; Present R'; CanPlayThrough true]
                     (updateAudioSource R st))
  = true.
Proof.
  intros R R' st.
  exact (proj1 (null_ref_blocks_scheduler st R
                  [CanPlayThrough true; Present R'; CanPlayThrough true]
                  (or_intror eq_refl) eq_refl)).
Defined.

(** X17: two reports of the loader always drain the scheduler.  From any
    reachable state, after [canplaythrough] has fired twice with nothing
    presented in between, the lock is free, nothing is pending and no
    listener is left; a result that was pending is then the live one. *)
Theorem two_reports_drain (st : State) (ok1 ok2 : bool) :
  reachable st →
  let st' := dispatch ok2 (dispatch ok1 st) in
  isSwappingRef st' = false ∧ pendingUpdateRef st' = None ∧ inFlight st' = [] ∧
  (∀ f, pendingUpdateRef st = Some f →
        ∃ u, liveUrl st' = Some u ∧ blobStore st' !! u = Some (blobOf f)).
Proof.
  intros Hreach. cbv zeta. pose proof (reachable_Inv st Hreach) as HI.
  assert (∀ s, Inv s → isSwappingRef s = false →
               pendingUpdateRef s = None ∧ inFlight s = []) as Hidle.
  { intros s (m & l & _ & Hl & Hsw & _) Hmode. rewrite Hmode in Hsw.
    destruct Hsw as (Hc & Hp & _). unfold inFlight. by rewrite Hl, Hc. }
  destruct (isSwappingRef st) eqn:Hmode.
  2:{ rewrite !dispatch_idle by (try rewrite dispatch_idle; done).
      destruct (Hidle st HI Hmode) as [Hp Hf]. repeat split; try done.
      intros f Hf'. congruence. }
  destruct (busy_inFlight st HI Hmode) as (u & l & _ & _ & Hu & _).
  pose proof HI as (m & _ & Hm & _).
  destruct (ready u ok1 st m HI Hm Hu) as (Ha1 & Hp1 & Hnext).
  pose proof (Inv_dispatch ok1 st HI) as HI1.
  destruct (pendingUpdateRef st) as [nextFile|] eqn:Hpe.
  - destruct Hnext as (Hb1 & Hf1 & _).
    destruct (ready (nextUrl st) ok2 _ _ HI1 Ha1 Hf1) as (Ha2 & Hp2 & Hnone).
    pose proof (ready_store (nextUrl st) ok2 _ _ HI1 Ha1 Hf1) as Hs2.
    rewrite Hp1 in Hnone, Hs2. destruct Hnone as (Hb2 & Hf2 & _).
    repeat split; try done. intros f [= <-].
    exists (nextUrl st). split; [unfold liveUrl; by rewrite Ha2|].
    rewrite Hs2. cbn [src].
    rewrite lookup_delete_ne.
    + rewrite (ready_store u ok1 st m HI Hm Hu), Hpe. apply lookup_insert_eq.
    + intros Heq. destruct HI as (m' & l' & Hm' & Hl' & Hsw & _).
      rewrite Hmode in Hsw. destruct Hsw as (u' & Hc & _ & Hnx & _).
      unfold inFlight in Hu. rewrite Hl', Hc in Hu. injection Hu as Hu. lia.
  - destruct Hnext as (Hb1 & Hf1 & _).
    rewrite (dispatch_idle ok2) by done.
    repeat split; try done.
Qed.

Lemma two_reports_drain_witness :
  let R0 := {| bytes := [x52]; type := Wav |} in
  let R1 := {| bytes := [x49]; type := Mpeg |} in
  let st := run [Present R0; Present R1] mounted in
  isSwappingRef (dispatch false (dispatch true st)) = false.
Proof.
  intros R0 R1 st.
  exact (proj1 (two_reports_drain st true false
                  (ex_intro _ [Present R0; Present R1] eq_refl))).
Defined.

End SchedulerCoverage.

(** ** Further properties of the orchestration handlers *)

Section OrchestratorCoverage.
Import Js Orchestrator OrchestratorSpec.

Lemma getAudioDuration_truncated (file : Dom.File) :
  Spec.truncatedHeader (Dom.arrayBuffer file) →
  Estimator.getAudioDuration file = Throw RangeError.
Proof.
  intros Ht. unfold Estimator.getAudioDuration.
  by destruct (initialOffset_spec (Dom.arrayBuffer file)) as [[_ ->]|[Hn _]].
Qed.

Lemma getAudioDuration_estimate (file : Dom.File) :
  ¬ Spec.truncatedHeader (Dom.arrayBuffer file) →
  Estimator.getAudioDuration file = Return (estimate file).
Proof.
  intros Hn. unfold estimate, Estimator.getAudioDuration.
  destruct (initialOffset_spec (Dom.arrayBuffer file)) as [[Ht _]|[_ [offset Hoff]]];
    [done|].
  rewrite Hoff. cbn [bind].
  pose proof (initialOffset_nonneg _ _ Hoff) as H0.
  destruct (scan_returns (Dom.arrayBuffer file) (Dom.size file)
              (length (Dom.arrayBuffer file)) offset) as [d ->];
    [done|unfold Estimator.byteLength; lia|done].
Qed.

Lemma all_Return {A B} (f : A → Completion B) (g : A → B) (xs : list A) :
  Forall (λ x, f x = Return (g x)) xs → all f xs = Return (map g xs).
Proof.
  induction 1 as [|x xs Hx _ IH]; [done|]. cbn [all map]. by rewrite Hx, IH.
Qed.

Lemma all_Throw {A B} (f : A → Completion B) (e : Error) (xs : list A) :
  Forall (λ x, (∃ y, f x = Return y) ∨ f x = Throw e) xs →
  Exists (λ x, f x = Throw e) xs →
  all f xs = Throw e.
Proof.
  induction 1 as [|x xs Hx _ IH]; intros Hex; [by apply Exists_nil in Hex|].
  cbn [all]. destruct Hx as [[y Hy]|Hy]; rewrite Hy; [|done]. cbn [bind].
  apply Exists_cons in Hex as [Hex|Hex]; [congruence|]. by rewrite IH.
Qed.

Lemma all_length {A B} (f : A → Completion B) (xs : list A) (ys : list B) :
  all f xs = Return ys → length ys = length xs.
Proof.
  revert ys. induction xs as [|x xs IH]; intros ys; cbn [all]; [by intros [= <-]|].
  destruct (f x) as [y| |]; cbn [bind]; [|done|done].
  destruct (all f xs) as [ys'| |]; cbn [bind]; [|done|done].
  intros [= <-]. cbn. f_equal. by apply IH.
Qed.

Lemma Exists_imap_pair {A} (Q : A → Prop) (h : nat → nat) (xs : list A) :
  Exists Q xs → Exists (λ p, Q p.2) (imap (λ i x, (h i, x)) xs).
Proof.
  intros H. revert h. induction H as [x xs Hx|x xs _ IH]; intros h; rewrite imap_cons.
  - by left.
  - right. apply (IH (h ∘ S)).
Qed.

Lemma initialVolumes_replicate {A} (xs : list A) :
  map (λ _, toUint8 100) xs = replicate (length xs) 100.
Proof. induction xs as [|x xs IH]; [done|]. cbn. by rewrite IH. Qed.

(** X10: an upload of files none of which has a truncated header, for
    which the worker created a combiner, replaces the track list by one
    track per file, in order, with the file's name, its estimated duration
    and volume 100; stores the combiner; and has sent to the worker first
    every file tagged WAV for the MIME type "audio/wav" and MPEG for any
    other, then one [combine] with a volume of 100 per file.  The scheduler
    is not touched before the mixed result arrives. *)
Theorem handleFileChange_success
    (selectedFiles : list Dom.File) (c : Combiner) (random : nat → string) (app : App) :
  selectedFiles ≠ [] →
  Forall (λ file, ¬ Spec.truncatedHeader (Dom.arrayBuffer file)) selectedFiles →
  handleFileChange selectedFiles (Return c) random app
  = ({| files := imap (trackOf random) selectedFiles;
        audioCombinerRef := Some c;
        fileInputRef := fileInputRef app;
        player := player app;
        workerCalls :=
          (workerCalls app ++ [CreateCombiner (fileDataOf selectedFiles)]) ++
          [Combine c (replicate (length selectedFiles) 100)] |},
     Return ()).
Proof.
  intros Hne Hall. unfold handleFileChange.
  destruct selectedFiles as [|file0 rest] eqn:Hsel; [done|]. rewrite <- Hsel in *.
  clear Hsel Hne.
  rewrite (all_Return _ (λ p, trackOf random p.1 p.2)).
  - rewrite fmap_imap. cbn [set_audioCombinerRef setFiles callWorker files
                            audioCombinerRef fileInputRef player workerCalls].
    rewrite initialVolumes_replicate, length_imap. reflexivity.
  - assert (∀ (h : nat → nat) xs,
              Forall (λ file, ¬ Spec.truncatedHeader (Dom.arrayBuffer file)) xs →
              Forall (λ x : nat * Dom.File,
                        (let '(i, file) := x in
                         let* duration := Estimator.getAudioDuration file in
                         Return {| id := random i; name := Dom.name file;
                                   duration := duration; volume := 100 |})
                        = Return (trackOf random x.1 x.2))
                     (imap (λ i x, (h i, x)) xs)) as Haux.
    { intros h xs H. revert h. induction H as [|x xs Hx _ IH]; intros h;
        [constructor|].
      rewrite imap_cons. constructor; [|apply (IH (h ∘ S))].
      cbn. by rewrite getAudioDuration_estimate. }
    apply (Haux (λ i, i) _ Hall).
Qed.

Lemma handleFileChange_success_witness :
  let file := {| Dom.name := "a.wav"; Dom.type := "audio/wav";
                 Dom.arrayBuffer := [x52; x49; x46; x46; x00; x00] |} in
  (handleFileChange [file] (Return 7%nat) (λ _, "k3j9x2a"%string) mounted).2
  = Return ().
Proof.
  intros file.
  refine (f_equal snd
            (handleFileChange_success [file] 7%nat (λ _, "k3j9x2a"%string) mounted _ _)).
  - done.
  - constructor; [|constructor].
    intros [H|[H|[H|(rest & H & _)]]]; discriminate H.
Defined.

(** X11: if one selected file has a truncated header, the upload fails with
    the estimator's [RangeError] after the worker was already asked to
    create the combiner: the track list, the combiner ref and the scheduler
    stay as they were, no [combine] is sent, and no [free] is sent for the
    combiner that was created. *)
Theorem handleFileChange_truncated_file
    (selectedFiles : list Dom.File) (c : Combiner) (random : nat → string) (app : App) :
  Exists (λ file, Spec.truncatedHeader (Dom.arrayBuffer file)) selectedFiles →
  handleFileChange selectedFiles (Return c) random app
  = (callWorker (CreateCombiner (fileDataOf selectedFiles)) app, Throw RangeError).
Proof.
  intros Hex. unfold handleFileChange.
  destruct selectedFiles as [|file0 rest] eqn:Hsel; [by apply Exists_nil in Hex|].
  rewrite <- Hsel in *. clear Hsel.
  rewrite (all_Throw _ RangeError); [done| |].
  - assert (∀ (h : nat → nat) xs,
              Forall (λ x : nat * Dom.File,
                        (∃ y, (let '(i, file) := x in
                               let* duration := Estimator.getAudioDuration file in
                               Return {| id := random i; name := Dom.name file;
                                         duration := duration; volume := 100 |})
                              = Return y) ∨
                        (let '(i, file) := x in
                         let* duration := Estimator.getAudioDuration file in
                         Return {| id := random i; name := Dom.name file;
                                   duration := duration; volume := 100 |})
                        = Throw RangeError)
                     (imap (λ i x, (h i, x)) xs)) as Haux.
    { intros h xs. revert h. induction xs as [|x xs IH]; intros h; [constructor|].
      rewrite imap_cons. constructor; [|apply (IH (h ∘ S))]. cbn.
      destruct (initialOffset_spec (Dom.arrayBuffer x)) as [[Ht _]|[Hn _]].
      - right. by rewrite getAudioDuration_truncated.
      - left. rewrite getAudioDuration_estimate by done. by eexists. }
    apply (Haux (λ i, i)).
  - apply (Exists_imap_pair _ (λ i, i)) in Hex.
    eapply Exists_impl; [exact Hex|]. intros [i file] Ht. cbn in *.
    by rewrite getAudioDuration_truncated.
Qed.

Lemma handleFileChange_truncated_file_witness :
  let good := {| Dom.name := "a.wav"; Dom.type := "audio/wav";
                 Dom.arrayBuffer := [x52; x49; x46; x46; x00; x00] |} in
  let empty := {| Dom.name := "b.mp3"; Dom.type := "audio/mpeg";
                  Dom.arrayBuffer := [] |} in
  (handleFileChange [good; empty] (Return 7%nat) (λ _, "k3j9x2a"%string) mounted).2
  = Throw RangeError.
Proof.
  intros good empty.
  refine (f_equal snd
            (handleFileChange_truncated_file [good; empty] 7%nat
               (λ _, "k3j9x2a"%string) mounted _)).
  right. left. by left.
Defined.

(** X12: how the whole upload handler can end.  When it fails, nothing has
    been presented to the scheduler, the file input is untouched and no
    [free] was sent; if it failed before the initial [combine] was sent (a
    rejected [createCombiner] or a failing estimate) the track list and the
    combiner ref are as before, but if the initial [combine] itself rejects,
    the new tracks and the combiner stay stored: that failure is not rolled
    back.  When it does not fail, either nothing was selected and nothing
    changed, or the combiner and one track per file are stored and the
    mixed file has been presented to the scheduler. *)
Theorem handleFileChange_failure_modes
    (selectedFiles : list Dom.File) (created : Completion Combiner)
    (random : nat → string) (combined : Completion Scheduler.MixedAudio) (app : App) :
  let suspended := handleFileChange selectedFiles created random app in
  let result := handleFileChangeSettled selectedFiles created random combined app in
  match result.2 with
  | Return _ =>
      (selectedFiles = [] ∧ result.1 = app) ∨
      (∃ c combinedFile,
         created = Return c ∧ combined = Return combinedFile ∧
         audioCombinerRef result.1 = Some c ∧
         length (files result.1) = length selectedFiles ∧
         player result.1 = Scheduler.updateAudioSource combinedFile (player app))
  | _ =>
      player result.1 = player app ∧
      fileInputRef result.1 = fileInputRef app ∧
      freed (workerCalls result.1) = freed (workerCalls app) ∧
      ((suspended.2 = result.2 ∧
        files result.1 = files app ∧
        audioCombinerRef result.1 = audioCombinerRef app) ∨
       (suspended.2 = Return () ∧ result.1 = suspended.1 ∧
        (∀ v, combined ≠ Return v) ∧
        ∃ c, created = Return c ∧
             audioCombinerRef result.1 = Some c ∧
             length (files result.1) = length selectedFiles))
  end.
Proof.
  cbv zeta. unfold handleFileChangeSettled, handleFileChange.
  destruct selectedFiles as [|file0 rest] eqn:Hsel; [by left|]. rewrite <- Hsel.
  assert (∀ a, freed (workerCalls (callWorker (CreateCombiner (fileDataOf selectedFiles)) a))
               = freed (workerCalls a)) as Hfreed.
  { intros a. unfold freed. cbn. rewrite omap_app. cbn. by rewrite app_nil_r. }
  assert (∀ c vs a, freed (workerCalls (callWorker (Combine c vs) a))
                    = freed (workerCalls a)) as Hfreed'.
  { intros c vs a. unfold freed. cbn. rewrite omap_app. cbn. by rewrite app_nil_r. }
  destruct created as [c|e|]; cbn [fst snd];
    [|by repeat split; [apply (Hfreed app)|left]..].
  destruct (all _ (imap pair selectedFiles)) as [newFiles|e|] eqn:Hall; cbn [fst snd];
    [|by repeat split; [apply (Hfreed app)|left]..].
  apply all_length in Hall. rewrite length_imap in Hall.
  destruct combined as [combinedFile|e|]; cbn [fst snd].
  - right. exists c, combinedFile.
    cbn [audioCombinerRef files player combineResolved callWorker setFiles
         set_audioCombinerRef set_player].
    by repeat split.
  - cbn [audioCombinerRef files player fileInputRef callWorker setFiles
         set_audioCombinerRef].
    split; [done|]. split; [done|]. split; [by rewrite Hfreed', <- (Hfreed app)|].
    right. repeat split; try done. by exists c.
  - cbn [audioCombinerRef files player fileInputRef callWorker setFiles
         set_audioCombinerRef].
    split; [done|]. split; [done|]. split; [by rewrite Hfreed', <- (Hfreed app)|].
    right. repeat split; try done. by exists c.
Qed.

(** The track list after [updateVolume], as a function of the one before. *)
Lemma updateVolume_files (id' : string) (value : Z) (app : App) :
  files (updateVolume id' value app)
  = map (λ f, if bool_decide (id f = id')
              then {| id := id f; name := name f; duration := duration f;
                      volume := value |}
              else f) (files app).
Proof.
  unfold updateVolume. cbn [audioCombinerRef setFiles].
  by destruct (audioCombinerRef app).
Qed.

(** X13: volume changes compose as slider moves should.  Two changes of the
    same track leave the list as the second alone would; changes of tracks
    with different identifiers give the same list in either order; and a
    change never alters the length of the list or the identifier, name or
    duration at any position. *)
Theorem updateVolume_compose (i j : string) (v w : Z) (app : App) :
  files (updateVolume i w (updateVolume i v app)) = files (updateVolume i w app) ∧
  (i ≠ j →
   files (updateVolume i v (updateVolume j w app))
   = files (updateVolume j w (updateVolume i v app))) ∧
  map (λ f, (id f, name f, duration f)) (files (updateVolume i v app))
  = map (λ f, (id f, name f, duration f)) (files app).
Proof.
  rewrite !updateVolume_files, !map_map. split; [|split].
  - apply map_ext. intros f. cbn.
    destruct (bool_decide (id f = i)) eqn:E; cbn; rewrite E; done.
  - intros Hij. apply map_ext. intros f.
    destruct (bool_decide (id f = i)) eqn:Ei, (bool_decide (id f = j)) eqn:Ej;
      cbn; rewrite ?Ei, ?Ej; try done.
    apply bool_decide_eq_true in Ei, Ej. congruence.
  - apply map_ext. intros f. by destruct (bool_decide (id f = i)).
Qed.

(** X14: with a combiner stored, [updateVolume] sends exactly one [combine],
    to that combiner, carrying one volume per track in list order: the new
    value for the tracks with the given identifier and the stored volume for
    the others, each reduced modulo 256 by the [Uint8Array]; it presents
    nothing to the scheduler before the result arrives. *)
Theorem updateVolume_sends_volumes (id' : string) (value : Z) (app : App) (c : Combiner) :
  audioCombinerRef app = Some c →
  let app' := updateVolume id' value app in
  workerCalls app'
  = workerCalls app ++
    [Combine c (map (λ f, (if bool_decide (id f = id') then value else volume f) mod 256)
                    (files app))] ∧
  audioCombinerRef app' = Some c ∧
  player app' = player app.
Proof.
  intros Hc. cbv zeta. unfold updateVolume. cbn [audioCombinerRef setFiles].
  rewrite Hc. cbn. rewrite map_map. repeat split; try done.
  f_equal. f_equal. f_equal. apply map_ext. intros f. unfold toUint8.
  by destruct (bool_decide (id f = id')).
Qed.

Lemma updateVolume_sends_volumes_witness :
  let a := {| id := "k3j9x2a"; name := "drums.mp3"; duration := "00:03:10";
              volume := 100 |} in
  let b := {| id := "p0q8w1z"; name := "bass.mp3"; duration := "00:03:10";
              volume := 100 |} in
  let app := set_audioCombinerRef (Some 7%nat) (setFiles [a; b] mounted) in
  workerCalls (updateVolume "p0q8w1z" 40 app) = [Combine 7%nat [100; 40]].
Proof.
  intros a b app.
  exact (proj1 (updateVolume_sends_volumes "p0q8w1z" 40 app 7%nat eq_refl)).
Defined.

(** X15: [reset] silences the sliders but cancels nothing.  After it a
    volume change finds no track and sends nothing to the worker; a mixed
    result that was still on its way is presented to the scheduler all the
    same; and a second [reset] changes nothing more. *)
Theorem reset_then (id' : string) (value : Z)
    (combinedFile : Scheduler.MixedAudio) (app : App) :
  updateVolume id' value (reset app) = reset app ∧
  player (combineResolved combinedFile (reset app))
  = Scheduler.updateAudioSource combinedFile (player app) ∧
  reset (reset app) = reset app.
Proof. destruct app as [fs c [v|] p ws]; repeat split. Qed.

End OrchestratorCoverage.

(** ** The start-up effect *)

Section BootstrapCoverage.
Import Bootstrap.

(** X16: however often the start-up effect runs (at least once),
    [api.init()] has been requested exactly once and the flag [ran] is
    set. *)
Theorem effect_requests_init_once (n : nat) :
  Nat.iter (S n) effect loaded = {| ran := true; initRequests := 1 |}.
Proof.
  induction n as [|n IH]; [reflexivity|].
  change (Nat.iter (S (S n)) effect loaded) with (effect (Nat.iter (S n) effect loaded)).
  by rewrite IH.
Qed.

End BootstrapCoverage.
